(** * Binomial option pricing: a shallow embedding of ValidusCaseStudy.ipynb

    The notebook prices European and American calls on a multiplicative
    binomial lattice, calibrates the step parameter with a bracketed root
    finder and computes the expected running maximum of the price path by
    counting Dyck paths.

    Conventions of the embedding.
    - Python [int]s are [Z].  The control flow, the array accesses and the
      exceptions of the notebook are modelled with floats idealised as exact
      reals [R]: no rounding, no overflow, no nan.  This model tells which
      exception a run ends in as long as the float operations raise nothing
      themselves, and the exact value that a returned float approximates.
      The float operations raise nothing for at most 1023 periods and
      [0 <= v <= 1]: from 1024 periods on [2**N] does not convert to a float,
      and a power of [1 + v] can overflow.
    - Module [B64] evaluates the float code again with IEEE binary64
      numbers (Rocq's primitive floats); it shows where the float that the
      notebook returns differs from the exact value.
    - A Python exception is a [Raise] in the error monad [result].  In the
      exact model a division by zero is [ZeroDivisionError]; numpy's float
      division by zero, which gives nan and a warning, is in [B64].
    - A square numpy array of shape (n,n) is its dimension and a total map
      from index pairs to cells; reads and writes go through numpy's index
      rule (negative indices count from the end, anything else out of range
      is an [IndexError]).
    - [scipy.special.comb] and [scipy.optimize.brentq] are not part of the
      notebook: [comb] is the binomial coefficient (0 outside the triangle,
      as scipy does), [brentq] is a parameter of the calibration functions. *)

From Stdlib Require Import Reals ZArith List Lia Lra Psatz Bool FinFun.
From Stdlib Require Import FunctionalExtensionality.
From Stdlib Require Import PrimFloat.
Import ListNotations.

Local Open Scope Z_scope.
Local Open Scope R_scope.

(** ** Python: exceptions, ranges, loops, sums, powers *)

Module Py.

Inductive exn : Set :=
| ValueError
| IndexError
| ZeroDivisionError.

Inductive result (A : Type) : Type :=
| Ok (a : A)
| Raise (e : exn).

Arguments Ok {A} a.
Arguments Raise {A} e.

Definition bind {A B : Type} (m : result A) (k : A -> result B) : result B :=
  match m with
  | Ok a => k a
  | Raise e => Raise e
  end.

(** [range(a, b)] and [range(a, b, -1)]; [range(n)] is [range(0, n)]. *)
Definition range2 (a b : Z) : list Z :=
  map (fun k => (a + Z.of_nat k)%Z) (seq 0 (Z.to_nat (b - a))).

Definition range (n : Z) : list Z := range2 0 n.

Definition range_down (a b : Z) : list Z :=
  map (fun k => (a - Z.of_nat k)%Z) (seq 0 (Z.to_nat (a - b))).

(** [for x in l: s = body(x, s)], stopping at the first exception. *)
Fixpoint for_ {S X : Type} (l : list X) (body : X -> S -> result S) (s : S)
  : result S :=
  match l with
  | [] => Ok s
  | x :: l' => bind (body x s) (for_ l' body)
  end.

(** The builtin [sum]: start at 0 and add from the left. *)
Definition sum (l : list R) : R := fold_left Rplus l 0.

(** [sum(e(x) for x in l)] where evaluating [e] may raise. *)
Fixpoint sum_gen {X : Type} (l : list X) (e : X -> result R) (acc : R)
  : result R :=
  match l with
  | [] => Ok acc
  | x :: l' => bind (e x) (fun y => sum_gen l' e (acc + y))
  end.

(** [seq[i]] on a Python list. *)
Definition list_get {A : Type} (l : list A) (i : Z) : result A :=
  let n := Z.of_nat (length l) in
  let i' := if (i <? 0)%Z then (i + n)%Z else i in
  if (i' <? 0)%Z then Raise IndexError
  else match nth_error l (Z.to_nat i') with
       | Some a => Ok a
       | None => Raise IndexError
       end.

(** [seq[i] = x] on a one-dimensional array. *)
Fixpoint replace_nth {A : Type} (l : list A) (n : nat) (x : A) : list A :=
  match l, n with
  | [], _ => []
  | _ :: t, O => x :: t
  | h :: t, S n' => h :: replace_nth t n' x
  end.

Definition list_set {A : Type} (l : list A) (i : Z) (x : A) : result (list A) :=
  let n := Z.of_nat (length l) in
  let i' := if (i <? 0)%Z then (i + n)%Z else i in
  if ((i' <? 0) || (n <=? i'))%Z then Raise IndexError
  else Ok (replace_nth l (Z.to_nat i') x).

End Py.

Import Py.

Declare Scope py_scope.
Delimit Scope py_scope with py.
Notation "x <- m ;; k" := (bind m (fun x => k))
  (at level 61, m at next level, right associativity) : py_scope.
Local Open Scope py_scope.

(** [x ** n] for an integer exponent.  Every exponent the notebook forms on
    a float base is non-negative; the only negative ones have base 2. *)
Notation "x ** n" := (powerRZ x n) (at level 30, right associativity) : R_scope.

(** ** numpy: square arrays *)

Module Np.

Record ndarray : Type := mk_ndarray {
  shape : Z;
  item : Z -> Z -> R
}.

(** [np.zeros((n, n))] *)
Definition zeros (n : Z) : result ndarray :=
  if (n <? 0)%Z then Raise ValueError
  else Ok (mk_ndarray n (fun _ _ => 0)).

(** numpy's index rule along an axis of length [n]. *)
Definition index (n i : Z) : result Z :=
  if ((0 <=? i) && (i <? n))%Z then Ok i
  else if ((- n <=? i) && (i <? 0))%Z then Ok (i + n)%Z
  else Raise IndexError.

(** [A[i, j]] *)
Definition get (A : ndarray) (i j : Z) : result R :=
  i' <- index (shape A) i ;;
  j' <- index (shape A) j ;;
  Ok (item A i' j').

(** [A[i, j] = x] *)
Definition set (A : ndarray) (i j : Z) (x : R) : result ndarray :=
  i' <- index (shape A) i ;;
  j' <- index (shape A) j ;;
  Ok (mk_ndarray (shape A)
        (fun a b => if ((a =? i') && (b =? j'))%Z then x else item A a b)).

(** [A[:, j] = x] *)
Definition set_col (A : ndarray) (j : Z) (x : R) : result ndarray :=
  j' <- index (shape A) j ;;
  Ok (mk_ndarray (shape A)
        (fun a b => if (b =? j')%Z then x else item A a b)).

(** [A[:, j] = A[:, j] / d] *)
Definition div_col (A : ndarray) (j : Z) (d : R) : result ndarray :=
  j' <- index (shape A) j ;;
  Ok (mk_ndarray (shape A)
        (fun a b => if (b =? j')%Z then item A a b / d else item A a b)).

(** [A * B], elementwise, on arrays of the same shape. *)
Definition mul (A B : ndarray) : result ndarray :=
  if (shape A =? shape B)%Z
  then Ok (mk_ndarray (shape A) (fun a b => item A a b * item B a b))
  else Raise ValueError.

(** Sum of the cells of column [j]. *)
Definition col_sum (A : ndarray) (j : Z) : R :=
  sum (map (fun i => item A i j) (range (shape A))).

(** [np.sum(A)] *)
Definition sum_all (A : ndarray) : R :=
  sum (map (fun i => sum (map (fun j => item A i j) (range (shape A))))
           (range (shape A))).

End Np.

(** ** scipy.special.comb *)

(** The exact binomial coefficient, by Pascal's rule; [comb] is 0 outside the
    triangle, as scipy's is.  What scipy returns is a float computed by a
    product loop, exact as long as the products stay below 2^53: see
    [B64.comb]. *)
Fixpoint binom (n k : nat) : nat :=
  match n, k with
  | _, O => 1
  | O, S _ => 0
  | S n', S k' => binom n' k' + binom n' k
  end.

Definition comb (N k : Z) : R :=
  if ((0 <=? k) && (k <=? N))%Z
  then INR (binom (Z.to_nat N) (Z.to_nat k))
  else 0.

(** ** Question 1: the European call *)

Definition EuropeanCallValue (N : Z) (v K : R) : result R :=
  let p := 1 / 2 in
  C <- Np.zeros (N + 1) ;;
  C <- for_ (range (N + 1)) (fun i C =>
         Np.set C i (-1) (Rmax 0 ((1 - v) ** i * (1 + v) ** (N - i) - K))) C ;;
  C <- for_ (range_down (N - 1) (-1)) (fun j C =>
         for_ (range (j + 1)) (fun i C =>
           a <- Np.get C i (j + 1) ;;
           b <- Np.get C (i + 1) (j + 1) ;;
           Np.set C i j (p * a + (1 - p) * b)) C) C ;;
  Np.get C 0 0.


(** ** Question 2: calibration of [v] on one option price *)

(** [scipy.optimize.brentq(f, a, b)]: the callback may raise. *)
Definition rootfinder : Type := (R -> result R) -> R -> R -> result R.

(** The binomial formula price inside the lambda of [vCalibration].  The
    divisor [2**N] is a Python [int] for [N >= 0]; it converts to a float up
    to [N = 1023], the range on which this model is used. *)
Definition binomialPrice (N : Z) (v K : R) : R :=
  sum (map (fun j => comb N j * Rmax 0 ((1 + v) ** j * (1 - v) ** (N - j) - K))
           (range (N + 1))) / 2 ** N.

Definition vCalibration (brentq : rootfinder) (N : Z) (K C : R) : result R :=
  let f := fun v => Ok (binomialPrice N v K - C) in
  brentq f 0 1.

(** ** Question 3: the American call *)

Definition AmericanCallValue (N : Z) (v K : R) : result R :=
  let p := 1 / 2 in
  C <- Np.zeros (N + 1) ;;
  C <- for_ (range (N + 1)) (fun j C =>
         for_ (range (j + 1)) (fun i C =>
           Np.set C i j ((1 - v) ** i * (1 + v) ** (j - i))) C) C ;;
  C <- for_ (range (N + 1)) (fun i C =>
         c <- Np.get C i (-1) ;;
         Np.set C i (-1) (Rmax 0 (c - K))) C ;;
  C <- for_ (range_down (N - 1) (-1)) (fun j C =>
         for_ (range (j + 1)) (fun i C =>
           a <- Np.get C i (j + 1) ;;
           b <- Np.get C (i + 1) (j + 1) ;;
           c <- Np.get C i j ;;
           Np.set C i j (Rmax (p * a + (1 - p) * b) (c - K))) C) C ;;
  Np.get C 0 0.

(** ** Question 4: Dyck paths and the expected maximum price *)

(** In the exact model the two counters raise where their divisor is 0.  In
    the notebook the division is numpy's float division, which returns nan
    there: see [B64.numberDyckPaths]. *)
Definition numberDyckPaths (n : Z) : result R :=
  if (n + 1 =? 0)%Z then Raise ZeroDivisionError
  else Ok (comb (2 * n) n / IZR (n + 1)).

Definition numberPrimitiveDyckPaths (n : Z) : result R :=
  if (n =? 0)%Z then Raise ZeroDivisionError
  else Ok (comb (2 * n - 2) (n - 1) / IZR n).

(** First block of [expectedMaxPrice]: the grid [P1].  The divisor [2**j] of
    the normalization is a Python [int]; it converts to a float up to
    [j = 1023], the range on which this model is used. *)
Definition expectedMaxPrice_P1 (N : Z) : result Np.ndarray :=
  P1 <- Np.zeros (N + 1) ;;
  P1 <- Np.set P1 0 0 1 ;;
  P1 <- Np.set P1 0 1 1 ;;
  P1 <- Np.set P1 0 2 1 ;;
  P1 <- for_ (range2 3 (N + 1)) (fun j P1 =>
          for_ (range (N + 1)) (fun i P1 =>
            let kRange := range (Z.min (i + 1) ((j - 1) / 2 + 1)) in
            s <- sum_gen kRange (fun k =>
                   a <- Np.get P1 (i - k) (j - 1 - 2 * k) ;;
                   d <- numberDyckPaths k ;;
                   Ok (a * d)) 0 ;;
            Np.set P1 i j s) P1) P1 ;;
  for_ (range (N + 1)) (fun j P1 => Np.div_col P1 j (2 ** j)) P1.

(** Second block: the grid [P2].  The primitive-path counter is the global
    name the loop body looks up at each call; it is a parameter here. *)
Definition expectedMaxPrice_P2 (prim : Z -> result R) (N : Z)
  : result Np.ndarray :=
  P2 <- Np.zeros (N + 1) ;;
  P2 <- Np.set_col P2 (-1) 1 ;;
  P2 <- for_ (range_down (N - 1) (-1)) (fun j P2 =>
          for_ (range_down j (-1)) (fun i P2 =>
            let kRange := range2 1 ((N - j) / 2 + 1) in
            a <- Np.get P2 (i + 1) (j + 1) ;;
            s <- sum_gen kRange (fun k =>
                   b <- Np.get P2 (i + k) (j + 2 * k) ;;
                   d <- prim k ;;
                   Ok (b * d)) 0 ;;
            Np.set P2 i j (a + s)) P2) P2 ;;
  for_ (range (N + 1)) (fun j P2 => Np.div_col P2 j (2 ** (N - j))) P2.

(** Third block: the grid [S] of stock prices. *)
Definition expectedMaxPrice_S (N : Z) (v : R) : result Np.ndarray :=
  S <- Np.zeros (N + 1) ;;
  S <- Np.set S 0 0 1 ;;
  for_ (range2 1 (N + 1)) (fun j S =>
    for_ (range (j + 1)) (fun i S =>
      Np.set S i j ((1 - v) ** i * (1 + v) ** (j - i))) S) S.

Definition expectedMaxPrice_with (prim : Z -> result R) (N : Z) (v : R)
  : result R :=
  P1 <- expectedMaxPrice_P1 N ;;
  P2 <- expectedMaxPrice_P2 prim N ;;
  S <- expectedMaxPrice_S N v ;;
  P12 <- Np.mul P1 P2 ;;
  P12S <- Np.mul P12 S ;;
  Ok (Np.sum_all P12S).

Definition expectedMaxPrice (N : Z) (v : R) : result R :=
  expectedMaxPrice_with numberPrimitiveDyckPaths N v.

(** ** Question 5: calibration on several options *)

(** [while j > 1: ...; j -= 1] leaves this value in [j]. *)
Fixpoint while_j (fuel : nat) (j : Z) : Z :=
  match fuel with
  | O => j
  | S fuel' => if (1 <? j)%Z then while_j fuel' (j - 1) else j
  end.

(** The lambdas read [i], [j], [N], [K], [C] and [V] when they are called,
    that is inside [brentq], within the same iteration. *)
Definition vCalibrationMulti (brentq : rootfinder) (N : list Z) (K C : list R)
  : result (list R) :=
  let m := Z.of_nat (length N) in
  let V := repeat 0 (length N) in
  for_ (range2 1 (m + 1)) (fun i V =>
    if (i =? 1)%Z then
      let f1 := fun v =>
        n <- list_get N (i - 1) ;;
        s <- sum_gen (range (n + 1)) (fun k =>
               Kk <- list_get K (i - 1) ;;
               Ok (comb n k * Rmax 0 ((1 + v) ** k * (1 - v) ** (n - k) - Kk))) 0 ;;
        c <- list_get C (i - 1) ;;
        Ok (s / 2 ** n - c) in
      x <- brentq f1 0 1 ;;
      list_set V (i - 1) x
    else
      let j := while_j (Z.to_nat i) i in
      let f2 := fun v t =>
        n <- list_get N (j - 1) ;;
        s <- sum_gen (range (n + 1)) (fun i' =>
               V0 <- list_get V 0 ;;
               N0 <- list_get N 0 ;;
               Kj <- list_get K (j - 1) ;;
               Ok (comb n i' *
                   Rmax 0 ((1 + V0) ** t * (1 - V0) ** (N0 - t)
                           * (1 + v) ** i' * (1 - v) ** (n - i') - Kj))) 0 ;;
        Ok (s / 2 ** n) in
      let g := fun v =>
        n <- list_get N (j - 1) ;;
        s <- sum_gen (range (n + 1)) (fun t =>
               y <- f2 v t ;;
               Ok (comb n t * y)) 0 ;;
        c <- list_get C (i - 1) ;;
        Ok (s / 2 ** n - c) in
      x <- brentq g 0 1 ;;
      list_set V (i - 1) x) V.

(** ** Mathematical descriptions of what the loops compute *)

(** Lattice recursion: [m] backward steps from the terminal values [f]. *)
Fixpoint back (f : Z -> R) (m : nat) (i : Z) : R :=
  match m with
  | O => f i
  | S m' => 1 / 2 * back f m' i + (1 - 1 / 2) * back f m' (i + 1)
  end.

Definition payoff (N : Z) (v K : R) (i : Z) : R :=
  Rmax 0 ((1 - v) ** i * (1 + v) ** (N - i) - K).

(** Price of the node with [i] down-moves at period [j]. *)
Definition price (v : R) (i j : Z) : R := (1 - v) ** i * (1 + v) ** (j - i).

(** The recursion of the American valuator, [m] steps before expiry. *)
Fixpoint backA (N : Z) (v K : R) (m : nat) (i : Z) : R :=
  match m with
  | O => Rmax 0 (price v i N - K)
  | S m' => Rmax (1 / 2 * backA N v K m' i + (1 - 1 / 2) * backA N v K m' (i + 1))
                 (price v i (N - Z.of_nat m) - K)
  end.

(** Expectation of [phi] after [m] further periods from price [s]. *)
Fixpoint lattice_expect (v : R) (phi : R -> R) (m : nat) (s : R) : R :=
  match m with
  | O => phi s
  | S m' => 1 / 2 * lattice_expect v phi m' (s * (1 + v))
            + (1 - 1 / 2) * lattice_expect v phi m' (s * (1 - v))
  end.

Definition call_payoff (K : R) (s : R) : R := Rmax 0 (s - K).


(** The Catalan number [binom (2k) k / (k+1)]. *)
Definition catalan (k : nat) : R := INR (binom (2 * k) k) / INR (S k).

(** Sums indexed by an initial segment of the naturals. *)
Definition sumn (g : nat -> R) (n : nat) : R := sum (map g (seq 0 n)).

(** The value the forward pass writes into [P1[i,j]], read off the grid [C]
    it starts the column from. *)
Definition P1_entry (j : Z) (C : Np.ndarray) (i : Z) : R :=
  0 + sum (map (fun k => Np.item C (i - k) (j - 1 - 2 * k) * catalan (Z.to_nat k))
               (range (Z.min (i + 1) ((j - 1) / 2 + 1)))).

(** The value the backward pass writes into [P2[i,j]]. *)
Definition P2_entry (N j : Z) (C : Np.ndarray) (i : Z) : R :=
  Np.item C (i + 1) (j + 1)
  + (0 + sum (map (fun k => Np.item C (i + k) (j + 2 * k)
                             * catalan (Z.to_nat (k - 1)))
                  (range2 1 ((N - j) / 2 + 1)))).


(** Price of a call struck at [K0] on a lattice of two blocks of [N0] periods
    each, with step [v1] in the first block and [v] in the second. *)
Definition two_block_price (N0 : Z) (K0 v1 v : R) : R :=
  lattice_expect v1 (lattice_expect v (call_payoff K0) (Z.to_nat N0))
                 (Z.to_nat N0) 1.

(** The root finder evaluates its callback at the left end of the bracket
    and lets an exception raised there through, as scipy's [brentq] does. *)
Definition brentq_propagates (brentq : rootfinder) : Prop :=
  forall f e, f 0 = Raise e -> brentq f 0 1 = Raise e.

(** Exact binomial coefficient by the multiplicative formula: after step [i]
    the accumulator is [C(n, i)]. *)
Definition choose (n k : Z) : Z :=
  fold_left (fun c i => (c * (n - i + 1) / i)%Z) (range2 1 (k + 1)) 1%Z.

(** ** The float code in IEEE binary64 *)

Module B64.

Local Open Scope float_scope.

(** A Python [int] as a float, for integers of absolute value at most 2^53,
    which a float holds exactly; this module converts no other. *)
Fixpoint of_pos (p : positive) : float :=
  match p with
  | xH => 1
  | xO q => 2 * of_pos q
  | xI q => 2 * of_pos q + 1
  end.

Definition of_Z (z : Z) : float :=
  match z with
  | Z0 => 0
  | Zpos p => of_pos p
  | Zneg p => - of_pos p
  end.

(** The builtin [max(a, b)]: [b] if [b > a], else [a]. *)
Definition py_max (a b : float) : float := if a <? b then b else a.

(** A square array of floats, with numpy's index rule. *)
Record ndarray : Type := mk_ndarray {
  shape : Z;
  item : Z -> Z -> float
}.

Definition zeros (n : Z) : result ndarray :=
  if (n <? 0)%Z then Raise ValueError
  else Ok (mk_ndarray n (fun _ _ => 0)).

Definition get (A : ndarray) (i j : Z) : result float :=
  i' <- Np.index (shape A) i ;;
  j' <- Np.index (shape A) j ;;
  Ok (item A i' j').

Definition set (A : ndarray) (i j : Z) (x : float) : result ndarray :=
  i' <- Np.index (shape A) i ;;
  j' <- Np.index (shape A) j ;;
  Ok (mk_ndarray (shape A)
        (fun a b => if ((a =? i') && (b =? j'))%Z then x else item A a b)).

(** [x ** n] on a float goes to the C library's [pow], which is not part of
    the notebook and not determined by IEEE 754: it is a parameter.  What is
    used of it is that [x ** 0] is 1 and [x ** 1] is [x]. *)
Definition pow_exact (pow : float -> Z -> result float) : Prop :=
  (forall x, pow x 0%Z = Ok 1) /\ (forall x, pow x 1%Z = Ok x).

(** A [pow] with these two properties. *)
Definition pow01 (x : float) (n : Z) : result float :=
  if (n =? 0)%Z then Ok 1 else Ok x.

Definition EuropeanCallValue (pow : float -> Z -> result float) (N : Z)
           (v K : float) : result float :=
  let p := 1 / 2 in
  C <- zeros (N + 1) ;;
  C <- for_ (range (N + 1)) (fun i C =>
         a <- pow (1 - v) i ;;
         b <- pow (1 + v) (N - i)%Z ;;
         set C i (-1) (py_max 0 (a * b - K))) C ;;
  C <- for_ (range_down (N - 1) (-1)) (fun j C =>
         for_ (range (j + 1)) (fun i C =>
           a <- get C i (j + 1) ;;
           b <- get C (i + 1) (j + 1) ;;
           set C i j (p * a + (1 - p) * b)) C) C ;;
  get C 0 0.

Definition AmericanCallValue (pow : float -> Z -> result float) (N : Z)
           (v K : float) : result float :=
  let p := 1 / 2 in
  C <- zeros (N + 1) ;;
  C <- for_ (range (N + 1)) (fun j C =>
         for_ (range (j + 1)) (fun i C =>
           a <- pow (1 - v) i ;;
           b <- pow (1 + v) (j - i)%Z ;;
           set C i j (a * b)) C) C ;;
  C <- for_ (range (N + 1)) (fun i C =>
         c <- get C i (-1) ;;
         set C i (-1) (py_max 0 (c - K))) C ;;
  C <- for_ (range_down (N - 1) (-1)) (fun j C =>
         for_ (range (j + 1)) (fun i C =>
           a <- get C i (j + 1) ;;
           b <- get C (i + 1) (j + 1) ;;
           c <- get C i j ;;
           set C i j (py_max (p * a + (1 - p) * b) (c - K))) C) C ;;
  get C 0 0.

(** [scipy.special.comb(N, k)] with its default [exact=False] calls the
    float routine [binom(n, k)] of scipy.special.  For integer arguments
    that routine first uses the symmetry of the coefficient when [k > n/2];
    then, for fewer than 20 factors, it runs the product loop below, and
    otherwise it goes through the gamma function, which is not modelled: the
    result is [None] there, and also for arguments above 2^53 in absolute
    value.  [0x1.11b0ec57e649ap+166] is the float [1e50]. *)
Definition binom_step (n kx : Z) (acc : float * float) (i : Z) : float * float :=
  let '(num, den) := acc in
  let num := num * (of_Z i + of_Z n - of_Z kx) in
  let den := den * of_Z i in
  if 0x1.11b0ec57e649ap+166 <? abs num then (num / den, 1) else (num, den).

Definition binom_loop (n kx : Z) : float :=
  let '(num, den) := fold_left (binom_step n kx) (range2 1 (1 + kx)) (1, 1) in
  num / den.

Definition comb (N k : Z) : option float :=
  if ((Z.abs N <=? 2 ^ 53) && (Z.abs k <=? 2 ^ 53))%Z then
    if ((k <=? N) && (0 <=? N) && (0 <=? k))%Z then
      let kx := if ((N <? 2 * k) && (0 <? N))%Z then (N - k)%Z else k in
      if (kx <? 20)%Z then Some (binom_loop N kx) else None
    else Some 0
  else None.

(** The division of a numpy float by a Python [int] is the IEEE division: by
    zero it gives nan or an infinity (and a warning), no exception. *)
Definition numberDyckPaths (n : Z) : option float :=
  match comb (2 * n) n with
  | Some c => Some (c / of_Z (n + 1))
  | None => None
  end.

Definition numberPrimitiveDyckPaths (n : Z) : option float :=
  match comb (2 * n - 2) (n - 1) with
  | Some c => Some (c / of_Z n)
  | None => None
  end.

End B64.

(** ** Loops and ranges *)

Lemma for_inv {S X : Type} (P : nat -> S -> Prop) (l : list X)
      (body : X -> S -> result S) (s : S) :
  P O s ->
  (forall n x s0, nth_error l n = Some x -> P n s0 ->
                  exists s1, body x s0 = Ok s1 /\ P (Datatypes.S n) s1) ->
  exists s', for_ l body s = Ok s' /\ P (length l) s'.
Proof.
  revert P s. induction l as [|x l IH]; intros P s H0 Hstep.
  - exists s. split; [reflexivity | exact H0].
  - destruct (Hstep O x s eq_refl H0) as [s1 [E1 P1]].
    destruct (IH (fun n => P (Datatypes.S n)) s1 P1) as [s' [E' P']].
    + intros n y s0 Hn Hp. apply (Hstep (Datatypes.S n) y s0 Hn Hp).
    + exists s'. split; [|exact P']. simpl. rewrite E1. exact E'.
Qed.

Lemma map_seq_nth {A : Type} (f : nat -> A) (len n : nat) (x : A) :
  nth_error (map f (seq 0 len)) n = Some x -> x = f n /\ (n < len)%nat.
Proof.
  rewrite nth_error_map, nth_error_seq.
  destruct (Nat.ltb_spec n len); [|discriminate].
  cbn. intros E. injection E as <-. split; [reflexivity | assumption].
Qed.

Lemma range2_length a b : length (range2 a b) = Z.to_nat (b - a).
Proof. unfold range2. now rewrite length_map, length_seq. Qed.

Lemma range2_nth a b n x :
  nth_error (range2 a b) n = Some x ->
  x = (a + Z.of_nat n)%Z /\ (Z.of_nat n < b - a)%Z.
Proof.
  unfold range2. intros H. apply map_seq_nth in H. destruct H as [-> H].
  split; [reflexivity | lia].
Qed.

Lemma range_length n : length (range n) = Z.to_nat n.
Proof. unfold range. rewrite range2_length. f_equal. lia. Qed.

Lemma range_nth n k x :
  nth_error (range n) k = Some x -> x = Z.of_nat k /\ (Z.of_nat k < n)%Z.
Proof. unfold range. intros H. apply range2_nth in H. lia. Qed.

Lemma range_down_length a b : length (range_down a b) = Z.to_nat (a - b).
Proof. unfold range_down. now rewrite length_map, length_seq. Qed.

Lemma range_down_nth a b n x :
  nth_error (range_down a b) n = Some x ->
  x = (a - Z.of_nat n)%Z /\ (Z.of_nat n < a - b)%Z.
Proof.
  unfold range_down. intros H. apply map_seq_nth in H. destruct H as [-> H].
  split; [reflexivity | lia].
Qed.

(** ** Array accesses inside the bounds *)

Lemma index_in n i : (0 <= i < n)%Z -> Np.index n i = Ok i.
Proof.
  intros H. unfold Np.index.
  destruct (Z.leb_spec 0 i); [|lia]. destruct (Z.ltb_spec i n); [|lia]. reflexivity.
Qed.

Lemma index_last n : (0 < n)%Z -> Np.index n (-1) = Ok (n - 1)%Z.
Proof.
  intros H. unfold Np.index.
  destruct (Z.leb_spec 0 (-1)); [lia|]. cbn [andb].
  destruct (Z.leb_spec (- n) (-1)); [|lia].
  destruct (Z.ltb_spec (-1) 0); [|lia]. cbn [andb].
  f_equal. lia.
Qed.

Lemma get_in A i j :
  (0 <= i < Np.shape A)%Z -> (0 <= j < Np.shape A)%Z ->
  Np.get A i j = Ok (Np.item A i j).
Proof. intros Hi Hj. unfold Np.get. now rewrite !index_in. Qed.

Lemma set_in A i j x :
  (0 <= i < Np.shape A)%Z -> (0 <= j < Np.shape A)%Z ->
  Np.set A i j x =
  Ok (Np.mk_ndarray (Np.shape A)
        (fun a b => if ((a =? i) && (b =? j))%Z then x else Np.item A a b)).
Proof. intros Hi Hj. unfold Np.set. now rewrite !index_in. Qed.

Lemma set_last A i x :
  (0 <= i < Np.shape A)%Z ->
  Np.set A i (-1) x =
  Ok (Np.mk_ndarray (Np.shape A)
        (fun a b => if ((a =? i) && (b =? Np.shape A - 1))%Z then x
                    else Np.item A a b)).
Proof. intros Hi. unfold Np.set. rewrite index_in, index_last by lia. reflexivity. Qed.

(** ** The European valuator computes the lattice recursion *)

Lemma European_terminal (N : Z) (f : Z -> R) (C : Np.ndarray) :
  (0 <= N)%Z -> Np.shape C = (N + 1)%Z ->
  exists C', for_ (range (N + 1)) (fun i C => Np.set C i (-1) (f i)) C = Ok C'
             /\ Np.shape C' = (N + 1)%Z
             /\ forall i, (0 <= i <= N)%Z -> Np.item C' i N = f i.
Proof.
  intros HN HC.
  destruct (for_inv
    (fun n C' => Np.shape C' = (N + 1)%Z /\
                 forall i, (0 <= i < Z.of_nat n)%Z -> Np.item C' i N = f i)
    (range (N + 1)) (fun i C => Np.set C i (-1) (f i)) C) as [C' [E [S' I']]].
  - split; [exact HC | intros; lia].
  - intros n x s0 Hn [Hs Hi]. apply range_nth in Hn. destruct Hn as [-> Hn].
    rewrite set_last by lia. eexists. split; [reflexivity|].
    split; [exact Hs|]. cbn [Np.item Np.shape]. intros i Hi'.
    destruct (Z.eqb_spec i (Z.of_nat n)) as [->|Hne]; cbn [andb].
    + rewrite Hs. replace (N + 1 - 1)%Z with N by lia. now rewrite Z.eqb_refl.
    + apply Hi. lia.
  - exists C'. split; [exact E|]. split; [exact S'|].
    intros i Hi. apply I'. rewrite range_length. lia.
Qed.

Lemma European_column (N j : Z) (g : Z -> R) (C : Np.ndarray) :
  (0 <= j < N)%Z -> Np.shape C = (N + 1)%Z ->
  (forall i, (0 <= i <= j + 1)%Z -> Np.item C i (j + 1) = g i) ->
  exists C',
    for_ (range (j + 1)) (fun i C =>
      a <- Np.get C i (j + 1) ;;
      b <- Np.get C (i + 1) (j + 1) ;;
      Np.set C i j (1 / 2 * a + (1 - 1 / 2) * b)) C = Ok C'
    /\ Np.shape C' = (N + 1)%Z
    /\ (forall a b, b <> j -> Np.item C' a b = Np.item C a b)
    /\ forall i, (0 <= i <= j)%Z ->
                 Np.item C' i j = 1 / 2 * g i + (1 - 1 / 2) * g (i + 1)%Z.
Proof.
  intros Hj HC Hg.
  destruct (for_inv
    (fun n C' => Np.shape C' = (N + 1)%Z /\
                 (forall a b, b <> j -> Np.item C' a b = Np.item C a b) /\
                 forall i, (0 <= i < Z.of_nat n)%Z ->
                           Np.item C' i j = 1 / 2 * g i + (1 - 1 / 2) * g (i + 1)%Z)
    (range (j + 1)) (fun i C =>
      a <- Np.get C i (j + 1) ;;
      b <- Np.get C (i + 1) (j + 1) ;;
      Np.set C i j (1 / 2 * a + (1 - 1 / 2) * b)) C) as [C' [E [S' [F' I']]]].
  - split; [exact HC|]. split; [reflexivity | intros; lia].
  - intros n x s0 Hn [Hs [Hf Hi]]. apply range_nth in Hn. destruct Hn as [-> Hn].
    rewrite !get_in by lia. cbn [bind]. rewrite set_in by lia.
    eexists. split; [reflexivity|]. cbn [Np.item Np.shape].
    split; [exact Hs|]. split.
    + intros a b Hb. destruct (Z.eqb_spec b j); [contradiction|].
      rewrite andb_false_r. now apply Hf.
    + intros i Hi'. destruct (Z.eqb_spec i (Z.of_nat n)) as [->|Hne]; cbn [andb].
      * rewrite Z.eqb_refl. rewrite !Hf by lia. rewrite !Hg by lia. reflexivity.
      * apply Hi. lia.
  - exists C'. split; [exact E|]. split; [exact S'|]. split; [exact F'|].
    intros i Hi. apply I'. rewrite range_length. lia.
Qed.

Lemma European_backward (N : Z) (f : Z -> R) (C : Np.ndarray) :
  (0 <= N)%Z -> Np.shape C = (N + 1)%Z ->
  (forall i, (0 <= i <= N)%Z -> Np.item C i N = f i) ->
  exists C',
    for_ (range_down (N - 1) (-1)) (fun j C =>
      for_ (range (j + 1)) (fun i C =>
        a <- Np.get C i (j + 1) ;;
        b <- Np.get C (i + 1) (j + 1) ;;
        Np.set C i j (1 / 2 * a + (1 - 1 / 2) * b)) C) C = Ok C'
    /\ Np.shape C' = (N + 1)%Z
    /\ forall m i, (Z.of_nat m <= N)%Z -> (0 <= i <= N - Z.of_nat m)%Z ->
                   Np.item C' i (N - Z.of_nat m) = back f m i.
Proof.
  intros HN HC Hf.
  destruct (for_inv
    (fun n C' => Np.shape C' = (N + 1)%Z /\
                 forall m i, (m <= n)%nat -> (0 <= i <= N - Z.of_nat m)%Z ->
                             Np.item C' i (N - Z.of_nat m) = back f m i)
    (range_down (N - 1) (-1)) (fun j C =>
      for_ (range (j + 1)) (fun i C =>
        a <- Np.get C i (j + 1) ;;
        b <- Np.get C (i + 1) (j + 1) ;;
        Np.set C i j (1 / 2 * a + (1 - 1 / 2) * b)) C) C) as [C' [E [S' I']]].
  - split; [exact HC|]. intros m i Hm Hi. assert (m = O) as -> by lia.
    cbn [back]. replace (N - Z.of_nat 0)%Z with N by lia. apply Hf. lia.
  - intros n x s0 Hn [Hs Hi]. apply range_down_nth in Hn. destruct Hn as [-> Hn].
    destruct (European_column N (N - 1 - Z.of_nat n) (back f n) s0) as [C1 [E1 [S1 [F1 I1]]]].
    + lia.
    + exact Hs.
    + intros i Hi'. replace (N - 1 - Z.of_nat n + 1)%Z with (N - Z.of_nat n)%Z by lia.
      apply Hi; lia.
    + exists C1. split; [exact E1|]. split; [exact S1|].
      intros m i Hm Hi'. destruct (Nat.eq_dec m (Datatypes.S n)) as [->|Hne].
      * replace (N - Z.of_nat (Datatypes.S n))%Z with (N - 1 - Z.of_nat n)%Z by lia.
        rewrite I1 by lia. reflexivity.
      * rewrite F1 by lia. apply Hi; lia.
  - exists C'. split; [exact E|]. split; [exact S'|].
    intros m i Hm Hi. apply I'; [|exact Hi]. rewrite range_down_length. lia.
Qed.

Lemma EuropeanCallValue_back (N : Z) (v K : R) :
  (0 <= N)%Z ->
  EuropeanCallValue N v K = Ok (back (payoff N v K) (Z.to_nat N) 0).
Proof.
  intros HN. unfold EuropeanCallValue, Np.zeros.
  destruct (Z.ltb_spec (N + 1) 0); [lia|]. cbn [bind].
  destruct (European_terminal N (payoff N v K) (Np.mk_ndarray (N + 1) (fun _ _ => 0)))
    as [C1 [E1 [S1 I1]]]; [lia | reflexivity |].
  unfold payoff in E1 at 1. rewrite E1. cbn [bind].
  destruct (European_backward N (payoff N v K) C1 HN S1 I1) as [C2 [E2 [S2 I2]]].
  rewrite E2. cbn [bind]. rewrite get_in by lia. f_equal.
  specialize (I2 (Z.to_nat N) 0%Z).
  replace (N - Z.of_nat (Z.to_nat N))%Z with 0%Z in I2 by lia.
  apply I2; lia.
Qed.

(** ** Sums *)

Lemma fold_left_Rplus_acc (l : list R) (a : R) :
  fold_left Rplus l a = a + fold_left Rplus l 0.
Proof.
  revert a. induction l as [|x l IH]; intros a; cbn [fold_left].
  - lra.
  - rewrite (IH (a + x)), (IH (0 + x)). lra.
Qed.

Lemma sum_nil : sum [] = 0.
Proof. reflexivity. Qed.

Lemma sum_cons (x : R) (l : list R) : sum (x :: l) = x + sum l.
Proof. unfold sum. cbn [fold_left]. rewrite fold_left_Rplus_acc. lra. Qed.

Lemma sum_app (l1 l2 : list R) : sum (l1 ++ l2) = sum l1 + sum l2.
Proof.
  induction l1 as [|x l1 IH]; cbn [app].
  - rewrite sum_nil. lra.
  - rewrite !sum_cons, IH. lra.
Qed.

Lemma sum_map_ext {X : Type} (f g : X -> R) (l : list X) :
  (forall x, In x l -> f x = g x) -> sum (map f l) = sum (map g l).
Proof.
  intros H. f_equal. apply map_ext_in. exact H.
Qed.

Lemma sum_map_le {X : Type} (f g : X -> R) (l : list X) :
  (forall x, In x l -> f x <= g x) -> sum (map f l) <= sum (map g l).
Proof.
  induction l as [|x l IH]; intros H; cbn [map].
  - lra.
  - rewrite !sum_cons.
    assert (f x <= g x) by (apply H; now left).
    assert (sum (map f l) <= sum (map g l)) by (apply IH; intros; apply H; now right).
    lra.
Qed.

Lemma sum_map_nonneg {X : Type} (f : X -> R) (l : list X) :
  (forall x, In x l -> 0 <= f x) -> 0 <= sum (map f l).
Proof.
  induction l as [|x l IH]; intros H; cbn [map].
  - rewrite sum_nil. lra.
  - rewrite sum_cons.
    assert (0 <= f x) by (apply H; now left).
    assert (0 <= sum (map f l)) by (apply IH; intros; apply H; now right).
    lra.
Qed.

Lemma sum_map_scal {X : Type} (c : R) (f : X -> R) (l : list X) :
  sum (map (fun x => c * f x) l) = c * sum (map f l).
Proof.
  induction l as [|x l IH]; cbn [map].
  - rewrite sum_nil. lra.
  - rewrite !sum_cons, IH. lra.
Qed.

Lemma sum_map_plus {X : Type} (f g : X -> R) (l : list X) :
  sum (map (fun x => f x + g x) l) = sum (map f l) + sum (map g l).
Proof.
  induction l as [|x l IH]; cbn [map].
  - rewrite !sum_nil. lra.
  - rewrite !sum_cons, IH. lra.
Qed.

Lemma sum_map_const {X : Type} (c : R) (l : list X) :
  sum (map (fun _ => c) l) = INR (length l) * c.
Proof.
  induction l as [|x l IH].
  - cbn [map length]. rewrite sum_nil. cbn [INR]. lra.
  - cbn [map length]. rewrite sum_cons, IH, S_INR. lra.
Qed.

Lemma sum_gen_pure {X : Type} (e : X -> result R) (e' : X -> R) (l : list X)
      (acc : R) :
  (forall x, In x l -> e x = Ok (e' x)) ->
  sum_gen l e acc = Ok (acc + sum (map e' l)).
Proof.
  revert acc. induction l as [|x l IH]; intros acc H; cbn [sum_gen map].
  - rewrite sum_nil. f_equal. lra.
  - rewrite (H x) by now left. cbn [bind].
    rewrite IH by (intros; apply H; now right).
    rewrite sum_cons. f_equal. lra.
Qed.

Lemma sum_gen_ext {X : Type} (e1 e2 : X -> result R) (l : list X) (acc : R) :
  (forall x, In x l -> e1 x = e2 x) -> sum_gen l e1 acc = sum_gen l e2 acc.
Proof.
  revert acc. induction l as [|x l IH]; intros acc H; cbn [sum_gen].
  - reflexivity.
  - rewrite (H x) by now left. destruct (e2 x); cbn [bind]; [|reflexivity].
    apply IH. intros; apply H; now right.
Qed.

Lemma for_ext {S X : Type} (b1 b2 : X -> S -> result S) (l : list X) (s : S) :
  (forall x s0, In x l -> b1 x s0 = b2 x s0) -> for_ l b1 s = for_ l b2 s.
Proof.
  revert s. induction l as [|x l IH]; intros s H; cbn [for_].
  - reflexivity.
  - rewrite (H x s) by now left. destruct (b2 x s); cbn [bind]; [|reflexivity].
    apply IH. intros; apply H; now right.
Qed.

(** ** Membership in ranges *)

Lemma in_range2 a b x : In x (range2 a b) <-> (a <= x < b)%Z.
Proof.
  unfold range2. rewrite in_map_iff. split.
  - intros [k [<- Hk]]. apply in_seq in Hk. lia.
  - intros H. exists (Z.to_nat (x - a)). split; [lia|]. apply in_seq. lia.
Qed.

Lemma in_range n x : In x (range n) <-> (0 <= x < n)%Z.
Proof. unfold range. apply in_range2. Qed.

Lemma in_range_down a b x : In x (range_down a b) <-> (b < x <= a)%Z.
Proof.
  unfold range_down. rewrite in_map_iff. split.
  - intros [k [<- Hk]]. apply in_seq in Hk. lia.
  - intros H. exists (Z.to_nat (a - x)). split; [lia|]. apply in_seq. lia.
Qed.

Lemma NoDup_range2 a b : NoDup (range2 a b).
Proof.
  unfold range2. apply Injective_map_NoDup; [|apply seq_NoDup].
  intros x y H. lia.
Qed.

Lemma NoDup_range n : NoDup (range n).
Proof. apply NoDup_range2. Qed.

Lemma NoDup_range_down a b : NoDup (range_down a b).
Proof.
  unfold range_down. apply Injective_map_NoDup; [|apply seq_NoDup].
  intros x y H. lia.
Qed.

Lemma range2_cons a b : (a < b)%Z -> range2 a b = a :: range2 (a + 1) b.
Proof.
  intros H. unfold range2.
  replace (Z.to_nat (b - a)) with (Datatypes.S (Z.to_nat (b - (a + 1)))) by lia.
  cbn [seq map]. f_equal; [lia|].
  rewrite <- seq_shift, map_map. apply map_ext. intros k. lia.
Qed.

Lemma range2_snoc a b : (a <= b)%Z -> range2 a (b + 1) = range2 a b ++ [b].
Proof.
  intros H. unfold range2.
  replace (Z.to_nat (b + 1 - a)) with (Z.to_nat (b - a) + 1)%nat by lia.
  rewrite seq_app, map_app. cbn [seq map]. do 2 f_equal. lia.
Qed.

Lemma range2_empty a b : (b <= a)%Z -> range2 a b = [].
Proof. intros H. unfold range2. now replace (Z.to_nat (b - a)) with O by lia. Qed.

Lemma range_down_cons a b : (b < a)%Z -> range_down a b = a :: range_down (a - 1) b.
Proof.
  intros H. unfold range_down.
  replace (Z.to_nat (a - b)) with (Datatypes.S (Z.to_nat (a - 1 - b))) by lia.
  cbn [seq map]. f_equal; [lia|].
  rewrite <- seq_shift, map_map. apply map_ext. intros k. lia.
Qed.

Lemma range_down_empty a b : (a <= b)%Z -> range_down a b = [].
Proof. intros H. unfold range_down. now replace (Z.to_nat (a - b)) with O by lia. Qed.

(** ** One pass over a column *)

Lemma for_column (n j : Z) (h : Z -> R) (C : Np.ndarray)
      (body : Z -> Np.ndarray -> result Np.ndarray) (l : list Z) :
  NoDup l -> (0 <= j < n)%Z -> (forall i, In i l -> (0 <= i < n)%Z) ->
  (forall i C0, In i l -> Np.shape C0 = n ->
     (forall a b, b <> j -> Np.item C0 a b = Np.item C a b) ->
     Np.item C0 i j = Np.item C i j ->
     body i C0 = Np.set C0 i j (h i)) ->
  forall C0, Np.shape C0 = n ->
    (forall a b, b <> j -> Np.item C0 a b = Np.item C a b) ->
    (forall a, In a l -> Np.item C0 a j = Np.item C a j) ->
    exists C', for_ l body C0 = Ok C'
      /\ Np.shape C' = n
      /\ (forall a b, b <> j -> Np.item C' a b = Np.item C a b)
      /\ (forall i, In i l -> Np.item C' i j = h i)
      /\ (forall i, ~ In i l -> Np.item C' i j = Np.item C0 i j).
Proof.
  intros Hnd Hj. induction l as [|x l IH]; intros Hl Hbody C0 Hs Hother Hcol.
  - exists C0. repeat split; auto. intros i [].
  - apply NoDup_cons_iff in Hnd. destruct Hnd as [Hx Hnd'].
    assert (Hxr : (0 <= x < n)%Z) by (apply Hl; now left).
    cbn [for_].
    rewrite (Hbody x C0 (or_introl eq_refl) Hs Hother (Hcol x (or_introl eq_refl))).
    rewrite set_in by lia. cbn [bind].
    destruct (IH Hnd') with
      (C0 := Np.mk_ndarray (Np.shape C0)
               (fun a b => if ((a =? x) && (b =? j))%Z then h x else Np.item C0 a b))
      as [C' [E [S' [O' [I' U']]]]].
    + intros i Hi. apply Hl. now right.
    + intros i C1 Hi. apply Hbody. now right.
    + exact Hs.
    + cbn [Np.item]. intros a b Hb. destruct (Z.eqb_spec b j); [contradiction|].
      rewrite andb_false_r. now apply Hother.
    + cbn [Np.item]. intros a Ha. destruct (Z.eqb_spec a x) as [->|Hne]; [contradiction|].
      cbn [andb]. apply Hcol. now right.
    + exists C'. split; [exact E|]. split; [exact S'|]. split; [exact O'|]. split.
      * intros i [<-|Hi]; [|now apply I'].
        rewrite U' by exact Hx. cbn [Np.item]. now rewrite !Z.eqb_refl.
      * intros i Hi. rewrite U' by (intros Hin; apply Hi; now right).
        cbn [Np.item]. destruct (Z.eqb_spec i x) as [->|Hne]; [|reflexivity].
        exfalso. apply Hi. now left.
Qed.

Lemma for_column_from (n j : Z) (h : Z -> R) (C : Np.ndarray)
      (body : Z -> Np.ndarray -> result Np.ndarray) (l : list Z) :
  NoDup l -> (0 <= j < n)%Z -> (forall i, In i l -> (0 <= i < n)%Z) ->
  Np.shape C = n ->
  (forall i C0, In i l -> Np.shape C0 = n ->
     (forall a b, b <> j -> Np.item C0 a b = Np.item C a b) ->
     Np.item C0 i j = Np.item C i j ->
     body i C0 = Np.set C0 i j (h i)) ->
  exists C', for_ l body C = Ok C'
    /\ Np.shape C' = n
    /\ (forall a b, b <> j -> Np.item C' a b = Np.item C a b)
    /\ (forall i, In i l -> Np.item C' i j = h i)
    /\ (forall i, ~ In i l -> Np.item C' i j = Np.item C i j).
Proof.
  intros Hnd Hj Hl Hs Hbody.
  apply (for_column n j h C body l Hnd Hj Hl Hbody C Hs); auto.
Qed.

Lemma set_minus_one A i x :
  (0 < Np.shape A)%Z -> Np.set A i (-1) x = Np.set A i (Np.shape A - 1) x.
Proof.
  intros H. unfold Np.set. rewrite index_last by exact H.
  rewrite (index_in (Np.shape A) (Np.shape A - 1)) by lia. reflexivity.
Qed.

Lemma get_minus_one A i :
  (0 < Np.shape A)%Z -> Np.get A i (-1) = Np.get A i (Np.shape A - 1).
Proof.
  intros H. unfold Np.get. rewrite index_last by exact H.
  rewrite (index_in (Np.shape A) (Np.shape A - 1)) by lia. reflexivity.
Qed.

(** ** Powers with non-negative integer exponents *)

Lemma powerRZ_nonneg_succ (x : R) (n : Z) :
  (0 <= n)%Z -> x ** (n + 1) = x * x ** n.
Proof.
  intros H. rewrite <- (Z2Nat.id n H).
  replace (Z.of_nat (Z.to_nat n) + 1)%Z with (Z.of_nat (Datatypes.S (Z.to_nat n))) by lia.
  rewrite <- !pow_powerRZ. reflexivity.
Qed.

Lemma powerRZ_of_nat (x : R) (n : Z) : (0 <= n)%Z -> x ** n = x ^ Z.to_nat n.
Proof. intros H. rewrite pow_powerRZ, Z2Nat.id by exact H. reflexivity. Qed.

Lemma price_up (v : R) (i j : Z) :
  (0 <= i <= j)%Z -> price v i (j + 1) = price v i j * (1 + v).
Proof.
  intros H. unfold price.
  replace (j + 1 - i)%Z with (j - i + 1)%Z by lia.
  rewrite powerRZ_nonneg_succ by lia. ring.
Qed.

Lemma price_down (v : R) (i j : Z) :
  (0 <= i <= j)%Z -> price v (i + 1) (j + 1) = price v i j * (1 - v).
Proof.
  intros H. unfold price.
  replace (j + 1 - (i + 1))%Z with (j - i)%Z by lia.
  rewrite powerRZ_nonneg_succ by lia. ring.
Qed.

Lemma price_avg (v : R) (i j : Z) :
  (0 <= i <= j)%Z ->
  1 / 2 * price v i (j + 1) + (1 - 1 / 2) * price v (i + 1) (j + 1) = price v i j.
Proof. intros H. rewrite price_up, price_down by exact H. field. Qed.

(** ** The American valuator computes its lattice recursion *)

Lemma American_prices (N : Z) (v : R) (C : Np.ndarray) :
  (0 <= N)%Z -> Np.shape C = (N + 1)%Z ->
  exists C',
    for_ (range (N + 1)) (fun j C =>
      for_ (range (j + 1)) (fun i C =>
        Np.set C i j ((1 - v) ** i * (1 + v) ** (j - i))) C) C = Ok C'
    /\ Np.shape C' = (N + 1)%Z
    /\ forall i j, (0 <= i <= j)%Z -> (j <= N)%Z -> Np.item C' i j = price v i j.
Proof.
  intros HN HC.
  destruct (for_inv
    (fun n C' => Np.shape C' = (N + 1)%Z /\
                 forall i j, (0 <= i <= j)%Z -> (j < Z.of_nat n)%Z ->
                             Np.item C' i j = price v i j)
    (range (N + 1)) (fun j C =>
      for_ (range (j + 1)) (fun i C =>
        Np.set C i j ((1 - v) ** i * (1 + v) ** (j - i))) C) C) as [C' [E [S' I']]].
  - split; [exact HC | intros; lia].
  - intros n x s0 Hn [Hs Hi]. apply range_nth in Hn. destruct Hn as [-> Hn].
    destruct (for_column_from (N + 1) (Z.of_nat n) (fun i => price v i (Z.of_nat n)) s0
                (fun i C => Np.set C i (Z.of_nat n)
                              ((1 - v) ** i * (1 + v) ** (Z.of_nat n - i)))
                (range (Z.of_nat n + 1)))
      as [C1 [E1 [S1 [O1 [I1 _]]]]].
    + apply NoDup_range.
    + lia.
    + intros i Hi'. apply in_range in Hi'. lia.
    + exact Hs.
    + reflexivity.
    + exists C1. split; [exact E1|]. split; [exact S1|].
      intros i j Hij Hj. destruct (Z.eq_dec j (Z.of_nat n)) as [->|Hne].
      * apply I1. apply in_range. lia.
      * rewrite O1 by exact Hne. apply Hi; lia.
  - exists C'. split; [exact E|]. split; [exact S'|].
    intros i j Hij Hj. apply I'; [exact Hij|]. rewrite range_length. lia.
Qed.

Lemma American_terminal (N : Z) (K : R) (C : Np.ndarray) :
  (0 <= N)%Z -> Np.shape C = (N + 1)%Z ->
  exists C',
    for_ (range (N + 1)) (fun i C =>
      c <- Np.get C i (-1) ;;
      Np.set C i (-1) (Rmax 0 (c - K))) C = Ok C'
    /\ Np.shape C' = (N + 1)%Z
    /\ (forall a b, b <> N -> Np.item C' a b = Np.item C a b)
    /\ forall i, (0 <= i <= N)%Z -> Np.item C' i N = Rmax 0 (Np.item C i N - K).
Proof.
  intros HN HC.
  destruct (for_column_from (N + 1) N (fun i => Rmax 0 (Np.item C i N - K)) C
              (fun i C => c <- Np.get C i (-1) ;; Np.set C i (-1) (Rmax 0 (c - K)))
              (range (N + 1)))
    as [C1 [E1 [S1 [O1 [I1 _]]]]].
  - apply NoDup_range.
  - lia.
  - intros i Hi. apply in_range in Hi. lia.
  - exact HC.
  - intros i C0 Hi Hs Ho Hc. apply in_range in Hi.
    rewrite get_minus_one by lia. rewrite Hs.
    replace (N + 1 - 1)%Z with N by lia.
    rewrite get_in by lia. cbn [bind].
    rewrite set_minus_one by lia. rewrite Hs.
    replace (N + 1 - 1)%Z with N by lia. now rewrite Hc.
  - exists C1. split; [exact E1|]. split; [exact S1|]. split; [exact O1|].
    intros i Hi. apply I1. apply in_range. lia.
Qed.

Lemma American_backward (N : Z) (v K : R) (C : Np.ndarray) :
  (0 <= N)%Z -> Np.shape C = (N + 1)%Z ->
  (forall i, (0 <= i <= N)%Z -> Np.item C i N = Rmax 0 (price v i N - K)) ->
  (forall i j, (0 <= i <= j)%Z -> (j < N)%Z -> Np.item C i j = price v i j) ->
  exists C',
    for_ (range_down (N - 1) (-1)) (fun j C =>
      for_ (range (j + 1)) (fun i C =>
        a <- Np.get C i (j + 1) ;;
        b <- Np.get C (i + 1) (j + 1) ;;
        c <- Np.get C i j ;;
        Np.set C i j (Rmax (1 / 2 * a + (1 - 1 / 2) * b) (c - K))) C) C = Ok C'
    /\ Np.shape C' = (N + 1)%Z
    /\ forall m i, (Z.of_nat m <= N)%Z -> (0 <= i <= N - Z.of_nat m)%Z ->
                   Np.item C' i (N - Z.of_nat m) = backA N v K m i.
Proof.
  intros HN HC Hterm Hprice.
  destruct (for_inv
    (fun n C' => Np.shape C' = (N + 1)%Z /\
                 (forall m i, (m <= n)%nat -> (0 <= i <= N - Z.of_nat m)%Z ->
                              Np.item C' i (N - Z.of_nat m) = backA N v K m i) /\
                 (forall i j, (0 <= i <= j)%Z -> (j < N - Z.of_nat n)%Z ->
                              Np.item C' i j = price v i j))
    (range_down (N - 1) (-1)) (fun j C =>
      for_ (range (j + 1)) (fun i C =>
        a <- Np.get C i (j + 1) ;;
        b <- Np.get C (i + 1) (j + 1) ;;
        c <- Np.get C i j ;;
        Np.set C i j (Rmax (1 / 2 * a + (1 - 1 / 2) * b) (c - K))) C) C)
    as [C' [E [S' [I' _]]]].
  - split; [exact HC|]. split.
    + intros m i Hm Hi. assert (m = O) as -> by lia.
      cbn [backA]. replace (N - Z.of_nat 0)%Z with N by lia. apply Hterm. lia.
    + intros i j Hij Hj. apply Hprice; lia.
  - intros n x s0 Hn [Hs [Hdone Htodo]]. apply range_down_nth in Hn.
    destruct Hn as [-> Hn]. set (j := (N - 1 - Z.of_nat n)%Z).
    destruct (for_column_from (N + 1) j (backA N v K (Datatypes.S n)) s0
                (fun i C =>
                   a <- Np.get C i (j + 1) ;;
                   b <- Np.get C (i + 1) (j + 1) ;;
                   c <- Np.get C i j ;;
                   Np.set C i j (Rmax (1 / 2 * a + (1 - 1 / 2) * b) (c - K)))
                (range (j + 1)))
      as [C1 [E1 [S1 [O1 [I1 _]]]]].
    + apply NoDup_range.
    + subst j; lia.
    + intros i Hi'. apply in_range in Hi'. subst j; lia.
    + exact Hs.
    + intros i C0 Hi' Hs0 Ho Hc. apply in_range in Hi'.
      rewrite !get_in by (subst j; lia). cbn [bind].
      rewrite !Ho by lia. rewrite Hc.
      replace (j + 1)%Z with (N - Z.of_nat n)%Z by (subst j; lia).
      rewrite !Hdone by (subst j; lia).
      rewrite Htodo by (subst j; lia).
      cbn [backA]. do 3 f_equal. subst j. f_equal. lia.
    + exists C1. split; [exact E1|]. split; [exact S1|]. split.
      * intros m i Hm Hi'. destruct (Nat.eq_dec m (Datatypes.S n)) as [->|Hne].
        -- replace (N - Z.of_nat (Datatypes.S n))%Z with j by (subst j; lia).
           apply I1. apply in_range. subst j; lia.
        -- rewrite O1 by (subst j; lia). apply Hdone; lia.
      * intros i j' Hij Hj'. rewrite O1 by (subst j; lia). apply Htodo; lia.
  - exists C'. split; [exact E|]. split; [exact S'|].
    intros m i Hm Hi. apply I'; [|exact Hi]. rewrite range_down_length. lia.
Qed.

Lemma AmericanCallValue_backA (N : Z) (v K : R) :
  (0 <= N)%Z ->
  AmericanCallValue N v K = Ok (backA N v K (Z.to_nat N) 0).
Proof.
  intros HN. unfold AmericanCallValue, Np.zeros.
  destruct (Z.ltb_spec (N + 1) 0); [lia|]. cbn [bind].
  destruct (American_prices N v (Np.mk_ndarray (N + 1) (fun _ _ => 0)))
    as [C1 [E1 [S1 I1]]]; [lia | reflexivity |].
  rewrite E1. cbn [bind].
  destruct (American_terminal N K C1 HN S1) as [C2 [E2 [S2 [O2 I2]]]].
  rewrite E2. cbn [bind].
  destruct (American_backward N v K C2 HN S2) as [C3 [E3 [S3 I3]]].
  - intros i Hi. rewrite I2 by exact Hi. rewrite I1 by lia. reflexivity.
  - intros i j Hij Hj. rewrite O2 by lia. apply I1; lia.
  - rewrite E3. cbn [bind]. rewrite get_in by lia. f_equal.
    specialize (I3 (Z.to_nat N) 0%Z).
    replace (N - Z.of_nat (Z.to_nat N))%Z with 0%Z in I3 by lia.
    apply I3; lia.
Qed.

(** ** American and European values coincide *)

Lemma payoff_price (N : Z) (v K : R) (i : Z) :
  payoff N v K i = Rmax 0 (price v i N - K).
Proof. reflexivity. Qed.

Lemma back_ge_exercise (N : Z) (v K : R) (m : nat) :
  forall i, (Z.of_nat m <= N)%Z -> (0 <= i <= N - Z.of_nat m)%Z ->
            price v i (N - Z.of_nat m) - K <= back (payoff N v K) m i.
Proof.
  induction m as [|m IH]; intros i Hm Hi.
  - cbn [back]. rewrite payoff_price.
    replace (N - Z.of_nat 0)%Z with N by lia. apply Rmax_r.
  - cbn [back].
    assert (H1 := IH i ltac:(lia) ltac:(lia)).
    assert (H2 := IH (i + 1)%Z ltac:(lia) ltac:(lia)).
    assert (H3 := price_avg v i (N - Z.of_nat (S m)) ltac:(lia)).
    replace (N - Z.of_nat (S m) + 1)%Z with (N - Z.of_nat m)%Z in H3 by lia.
    lra.
Qed.

Lemma backA_back (N : Z) (v K : R) (m : nat) :
  forall i, (Z.of_nat m <= N)%Z -> (0 <= i <= N - Z.of_nat m)%Z ->
            backA N v K m i = back (payoff N v K) m i.
Proof.
  induction m as [|m IH]; intros i Hm Hi.
  - reflexivity.
  - cbn [backA]. rewrite !IH by lia.
    apply Rmax_left. apply (back_ge_exercise N v K (S m) i Hm Hi).
Qed.

Lemma American_European_same (N : Z) (v K : R) :
  (0 <= N)%Z -> AmericanCallValue N v K = EuropeanCallValue N v K.
Proof.
  intros HN. rewrite AmericanCallValue_backA, EuropeanCallValue_back by exact HN.
  f_equal. apply backA_back; lia.
Qed.

(** ** Binomial coefficients *)

Lemma binom_gt (n : nat) : forall k, (n < k)%nat -> binom n k = O.
Proof.
  induction n as [|n IH]; intros k Hk.
  - destruct k; [lia | reflexivity].
  - destruct k; [lia|]. cbn [binom]. rewrite !IH by lia. reflexivity.
Qed.

Lemma binom_diag (n : nat) : binom n n = 1%nat.
Proof.
  induction n as [|n IH]; [reflexivity|].
  cbn [binom]. rewrite IH, binom_gt by lia. reflexivity.
Qed.

Lemma binom_0 (n : nat) : binom n 0 = 1%nat.
Proof. destruct n; reflexivity. Qed.

Lemma binom_sym (n : nat) : forall k, (k <= n)%nat -> binom n (n - k) = binom n k.
Proof.
  induction n as [|n IH]; intros k Hk.
  - replace k with O by lia. reflexivity.
  - destruct k as [|k].
    + rewrite Nat.sub_0_r, binom_diag, binom_0. reflexivity.
    + replace (S n - S k)%nat with (n - k)%nat by lia.
      destruct (Nat.eq_dec k n) as [->|Hne].
      * rewrite Nat.sub_diag, binom_diag, binom_0. reflexivity.
      * replace (n - k)%nat with (S (n - S k)) by lia.
        cbn [binom]. rewrite IH by lia.
        replace (S (n - S k)) with (n - k)%nat by lia.
        rewrite IH by lia. lia.
Qed.

(** ** Sums indexed by an initial segment of the naturals *)

Lemma sumn_0 g : sumn g 0 = 0.
Proof. reflexivity. Qed.

Lemma sumn_S g n : sumn g (S n) = sumn g n + g n.
Proof.
  unfold sumn. rewrite seq_S, map_app, sum_app. cbn [map].
  rewrite sum_cons, sum_nil. cbn [Nat.add]. lra.
Qed.

Lemma sumn_S_first g n : sumn g (S n) = g O + sumn (fun k => g (S k)) n.
Proof.
  unfold sumn. cbn [seq map]. rewrite sum_cons.
  rewrite <- seq_shift, map_map. reflexivity.
Qed.

Lemma sumn_ext g h n :
  (forall k, (k < n)%nat -> g k = h k) -> sumn g n = sumn h n.
Proof.
  intros H. unfold sumn. apply sum_map_ext. intros k Hk.
  apply in_seq in Hk. apply H. lia.
Qed.

Lemma sumn_le g h n :
  (forall k, (k < n)%nat -> g k <= h k) -> sumn g n <= sumn h n.
Proof.
  intros H. unfold sumn. apply sum_map_le. intros k Hk.
  apply in_seq in Hk. apply H. lia.
Qed.

Lemma sumn_nonneg g n : (forall k, (k < n)%nat -> 0 <= g k) -> 0 <= sumn g n.
Proof.
  intros H. unfold sumn. apply sum_map_nonneg. intros k Hk.
  apply in_seq in Hk. apply H. lia.
Qed.

Lemma sumn_plus g h n : sumn (fun k => g k + h k) n = sumn g n + sumn h n.
Proof. unfold sumn. apply sum_map_plus. Qed.

Lemma sumn_scal c g n : sumn (fun k => c * g k) n = c * sumn g n.
Proof. unfold sumn. apply sum_map_scal. Qed.

Lemma sumn_rev g n : sumn g n = sumn (fun k => g (n - 1 - k)%nat) n.
Proof.
  induction n as [|n IH]; [reflexivity|].
  rewrite sumn_S, sumn_S_first, IH.
  replace (S n - 1 - 0)%nat with n by lia.
  rewrite Rplus_comm. f_equal. apply sumn_ext. intros k Hk. f_equal. lia.
Qed.

Lemma sum_range (h : Z -> R) (n : Z) :
  sum (map h (range n)) = sumn (fun k => h (Z.of_nat k)) (Z.to_nat n).
Proof.
  unfold range, range2, sumn. rewrite map_map, Z.sub_0_r.
  apply sum_map_ext. intros k _. reflexivity.
Qed.

Lemma sum_range2 (h : Z -> R) (a b : Z) :
  sum (map h (range2 a b)) = sumn (fun k => h (a + Z.of_nat k)%Z) (Z.to_nat (b - a)).
Proof. unfold range2, sumn. now rewrite map_map. Qed.

(** ** Backward induction is the binomial formula *)

Lemma back_binomial_sum (f : Z -> R) (m : nat) :
  forall i, back f m i
            = sumn (fun k => INR (binom m k) * f (i + Z.of_nat k)%Z) (S m) / 2 ^ m.
Proof.
  induction m as [|m IH]; intros i.
  - cbn [back pow]. rewrite sumn_S, sumn_0. cbn [binom INR].
    replace (i + Z.of_nat 0)%Z with i by lia. lra.
  - cbn [back]. rewrite (IH i), (IH (i + 1)%Z).
    assert (Hpascal :
      sumn (fun k => INR (binom (S m) k) * f (i + Z.of_nat k)%Z) (S (S m))
      = sumn (fun k => INR (binom m k) * f (i + Z.of_nat k)%Z) (S m)
        + sumn (fun k => INR (binom m k) * f (i + 1 + Z.of_nat k)%Z) (S m)).
    { rewrite (sumn_S_first _ (S m)).
      rewrite (sumn_ext _ (fun k => INR (binom m k) * f (i + 1 + Z.of_nat k)%Z
                                   + INR (binom m (S k)) * f (i + Z.of_nat (S k))%Z)).
      2:{ intros k _. cbn [binom]. rewrite plus_INR.
          replace (i + Z.of_nat (S k))%Z with (i + 1 + Z.of_nat k)%Z by lia. ring. }
      rewrite sumn_plus.
      rewrite (sumn_S_first (fun k => INR (binom m k) * f (i + Z.of_nat k)%Z) m).
      rewrite (sumn_S (fun k => INR (binom m (S k)) * f (i + Z.of_nat (S k))%Z) m).
      rewrite (binom_gt m (S m)) by lia. rewrite !binom_0. cbn [INR]. lra. }
    rewrite Hpascal. cbn [pow].
    assert (H2 : 2 ^ m <> 0) by (apply pow_nonzero; lra).
    field. exact H2.
Qed.

Lemma comb_in (N k : Z) :
  (0 <= k <= N)%Z -> comb N k = INR (binom (Z.to_nat N) (Z.to_nat k)).
Proof.
  intros H. unfold comb.
  destruct (Z.leb_spec 0 k); [|lia]. destruct (Z.leb_spec k N); [|lia]. reflexivity.
Qed.

Lemma binomialPrice_sumn (N : Z) (v K : R) :
  (0 <= N)%Z ->
  binomialPrice N v K
  = sumn (fun k => INR (binom (Z.to_nat N) k) * payoff N v K (Z.of_nat k))
         (S (Z.to_nat N)) / 2 ^ Z.to_nat N.
Proof.
  intros HN. unfold binomialPrice.
  rewrite sum_range, (powerRZ_of_nat 2 N HN).
  replace (Z.to_nat (N + 1)) with (S (Z.to_nat N)) by lia.
  f_equal. rewrite (sumn_rev _ (S (Z.to_nat N))).
  apply sumn_ext. intros k Hk.
  replace (S (Z.to_nat N) - 1 - k)%nat with (Z.to_nat N - k)%nat by lia.
  rewrite comb_in by lia. rewrite Nat2Z.id.
  rewrite binom_sym by lia. f_equal. unfold payoff.
  replace (Z.of_nat (Z.to_nat N - k)) with (N - Z.of_nat k)%Z by lia.
  replace (N - (N - Z.of_nat k))%Z with (Z.of_nat k) by lia.
  now rewrite Rmult_comm.
Qed.

Lemma EuropeanCallValue_binomialPrice (N : Z) (v K : R) :
  (0 <= N)%Z -> EuropeanCallValue N v K = Ok (binomialPrice N v K).
Proof.
  intros HN. rewrite EuropeanCallValue_back by exact HN. f_equal.
  rewrite back_binomial_sum, binomialPrice_sumn by exact HN.
  reflexivity.
Qed.

(** ** Monotonicity of the European price in [v] *)

Lemma back_lattice_expect (N : Z) (v K : R) (m : nat) :
  forall i, (Z.of_nat m <= N)%Z -> (0 <= i <= N - Z.of_nat m)%Z ->
    back (payoff N v K) m i
    = lattice_expect v (call_payoff K) m (price v i (N - Z.of_nat m)).
Proof.
  induction m as [|m IH]; intros i Hm Hi.
  - cbn [back lattice_expect]. replace (N - Z.of_nat 0)%Z with N by lia. reflexivity.
  - cbn [back lattice_expect]. rewrite !IH by lia.
    replace (N - Z.of_nat m)%Z with (N - Z.of_nat (S m) + 1)%Z by lia.
    rewrite price_up, price_down by lia. reflexivity.
Qed.





Lemma EuropeanCallValue_expect (N : Z) (v K : R) :
  (0 <= N)%Z ->
  EuropeanCallValue N v K = Ok (lattice_expect v (call_payoff K) (Z.to_nat N) 1).
Proof.
  intros HN. rewrite EuropeanCallValue_back by exact HN. f_equal.
  rewrite back_lattice_expect by lia.
  replace (N - Z.of_nat (Z.to_nat N))%Z with 0%Z by lia.
  f_equal. unfold price. cbn. lra.
Qed.

(** ** Binomial coefficients, factorials and Catalan numbers *)

Lemma binom_absorb (n : nat) :
  forall k, (S k * binom (S n) (S k) = S n * binom n k)%nat.
Proof.
  induction n as [|n IH]; intros k.
  - destruct k as [|k]; [reflexivity|].
    cbn [binom]. destruct k; cbn; lia.
  - destruct k as [|k].
    + assert (H := IH O). rewrite binom_0 in *.
      change (binom (S (S n)) 1) with (binom (S n) 0 + binom (S n) 1)%nat.
      rewrite binom_0. lia.
    + assert (H1 := IH k). assert (H2 := IH (S k)).
      change (binom (S (S n)) (S (S k)))
        with (binom (S n) (S k) + binom (S n) (S (S k)))%nat.
      change (binom (S n) (S k)) with (binom n k + binom n (S k))%nat in *.
      nia.
Qed.

Lemma binom_fact (n : nat) :
  forall k, (k <= n)%nat -> (binom n k * (fact k * fact (n - k)) = fact n)%nat.
Proof.
  induction n as [|n IH]; intros k Hk.
  - replace k with O by lia. reflexivity.
  - destruct k as [|k].
    + rewrite binom_0, Nat.sub_0_r. cbn [fact]. lia.
    + assert (H := binom_absorb n k). assert (H' := IH k ltac:(lia)).
      replace (S n - S k)%nat with (n - k)%nat by lia.
      change (fact (S k)) with (S k * fact k)%nat.
      change (fact (S n)) with (S n * fact n)%nat.
      rewrite <- H'.
      transitivity ((S k * binom (S n) (S k)) * (fact k * fact (n - k)))%nat;
        [ring|]. rewrite H. ring.
Qed.

Lemma binom_C (n k : nat) : (k <= n)%nat -> INR (binom n k) = C n k.
Proof.
  intros Hk. unfold C. rewrite <- (binom_fact n k Hk).
  rewrite !mult_INR. field.
  split; apply INR_fact_neq_0.
Qed.

Lemma binom_pos (n : nat) : forall k, (k <= n)%nat -> (0 < binom n k)%nat.
Proof.
  induction n as [|n IH]; intros k Hk.
  - replace k with O by lia. cbn. lia.
  - destruct k as [|k]; [cbn; lia|].
    cbn [binom]. assert (H := IH k ltac:(lia)). lia.
Qed.

Lemma central_binom_step (n : nat) :
  (S n * binom (2 * S n) (S n) = 2 * (2 * n + 1) * binom (2 * n) n)%nat.
Proof.
  replace (2 * S n)%nat with (S (S (2 * n))) by lia.
  assert (H1 := binom_absorb (S (2 * n)) n).
  assert (H2 := binom_absorb (2 * n) n).
  assert (H3 := binom_sym (S (2 * n)) n ltac:(lia)).
  replace (S (2 * n) - n)%nat with (S n) in H3 by lia.
  rewrite H3 in H2.
  assert (H4 : (S n * (S n * binom (S (S (2 * n))) (S n))
                = S n * (2 * (2 * n + 1) * binom (2 * n) n))%nat) by nia.
  apply Nat.mul_cancel_l in H4; [exact H4 | lia].
Qed.

Lemma catalan_nonneg (k : nat) : 0 <= catalan k.
Proof.
  unfold catalan. apply Rmult_le_pos; [apply pos_INR|].
  apply Rlt_le, Rinv_0_lt_compat, lt_0_INR. lia.
Qed.

(** Partial sums of [catalan k / 4^k] stay below 2. *)
Lemma catalan_partial_sum (n : nat) :
  sumn (fun k => catalan k / 4 ^ k) (S n)
  = 2 - 2 * INR (binom (2 * S n) (S n)) / 4 ^ S n.
Proof.
  induction n as [|n IH].
  - rewrite sumn_S, sumn_0. unfold catalan. cbn. lra.
  - rewrite sumn_S, IH. unfold catalan.
    assert (H := central_binom_step (S n)).
    apply (f_equal INR) in H. rewrite !mult_INR, plus_INR, mult_INR in H.
    rewrite !S_INR in *. cbn [INR] in H.
    assert (Hn := pos_INR n).
    assert (H4 : 4 ^ S n <> 0) by (apply pow_nonzero; lra).
    set (c := INR (binom (2 * S n) (S n))) in *.
    set (c' := INR (binom (2 * S (S n)) (S (S n)))) in *.
    assert (Hc' : c' = (1 + 1) * ((1 + 1) * (INR n + 1) + 1) * c / (INR n + 1 + 1)).
    { field_simplify_eq; [|lra]. lra. }
    rewrite Hc'. change (4 ^ S (S n)) with (4 * 4 ^ S n).
    field. split; [lra | exact H4].
Qed.

Lemma catalan_sum_le_2 (n : nat) : sumn (fun k => catalan k / 4 ^ k) n <= 2.
Proof.
  destruct n as [|n]; [rewrite sumn_0; lra|].
  rewrite catalan_partial_sum.
  assert (0 <= 2 * INR (binom (2 * S n) (S n)) / 4 ^ S n).
  { apply Rmult_le_pos.
    - apply Rmult_le_pos; [lra | apply pos_INR].
    - apply Rlt_le, Rinv_0_lt_compat, pow_lt. lra. }
  lra.
Qed.

(** ** The Dyck path counters on their domains *)

Lemma numberDyckPaths_catalan (k : Z) :
  (0 <= k)%Z -> numberDyckPaths k = Ok (catalan (Z.to_nat k)).
Proof.
  intros Hk. unfold numberDyckPaths.
  destruct (Z.eqb_spec (k + 1) 0); [lia|].
  rewrite comb_in by lia. unfold catalan.
  replace (Z.to_nat (2 * k)) with (2 * Z.to_nat k)%nat by lia.
  rewrite (INR_IZR_INZ (S (Z.to_nat k))).
  replace (Z.of_nat (S (Z.to_nat k))) with (k + 1)%Z by lia.
  reflexivity.
Qed.

Lemma numberPrimitiveDyckPaths_catalan (k : Z) :
  (1 <= k)%Z -> numberPrimitiveDyckPaths k = Ok (catalan (Z.to_nat (k - 1))).
Proof.
  intros Hk. unfold numberPrimitiveDyckPaths.
  destruct (Z.eqb_spec k 0); [lia|].
  rewrite comb_in by lia. unfold catalan.
  replace (Z.to_nat (2 * k - 2)) with (2 * Z.to_nat (k - 1))%nat by lia.
  rewrite (INR_IZR_INZ (S (Z.to_nat (k - 1)))).
  replace (Z.of_nat (S (Z.to_nat (k - 1)))) with k by lia.
  reflexivity.
Qed.

(** ** More on sums *)

Lemma sumn_zero n : sumn (fun _ => 0) n = 0.
Proof.
  induction n as [|n IH]; [reflexivity|]. rewrite sumn_S, IH. lra.
Qed.

Lemma sumn_le_length g m n :
  (m <= n)%nat -> (forall k, 0 <= g k) -> sumn g m <= sumn g n.
Proof.
  intros Hmn Hg. induction Hmn as [|n Hmn IH]; [lra|].
  rewrite sumn_S. specialize (Hg n). lra.
Qed.

Lemma sumn_trunc h a b :
  sumn (fun k => if (k <? a)%nat then h k else 0) b = sumn h (Nat.min a b).
Proof.
  induction b as [|b IH].
  - rewrite Nat.min_0_r. reflexivity.
  - rewrite sumn_S, IH. destruct (Nat.ltb_spec b a).
    + rewrite !Nat.min_r by lia. rewrite sumn_S. reflexivity.
    + rewrite !Nat.min_l by lia. lra.
Qed.

Lemma triangle_swap (G : nat -> nat -> R) (M n : nat) :
  sumn (fun i => sumn (fun k => G k (i - k)%nat) (Nat.min (S i) M)) n
  = sumn (fun k => sumn (G k) (n - k)) M.
Proof.
  induction n as [|n IH].
  - rewrite sumn_0. symmetry. rewrite <- (sumn_zero M).
    apply sumn_ext. intros k _. reflexivity.
  - rewrite sumn_S, IH, <- sumn_trunc, <- sumn_plus.
    apply sumn_ext. intros k _. destruct (Nat.ltb_spec k (S n)).
    + replace (S n - k)%nat with (S (n - k)) by lia. rewrite sumn_S. reflexivity.
    + replace (S n - k)%nat with O by lia. replace (n - k)%nat with O by lia. lra.
Qed.

Lemma pow4_pow2 (k : nat) : 4 ^ k = 2 ^ (2 * k).
Proof. rewrite pow_mult. f_equal. lra. Qed.

Lemma catalan_weighted (p n : nat) :
  (forall k, (k < n)%nat -> (2 * k <= p)%nat) ->
  sumn (fun k => 2 ^ (p - 2 * k) * catalan k) n <= 2 ^ S p.
Proof.
  intros Hk.
  rewrite (sumn_ext _ (fun k => 2 ^ p * (catalan k / 4 ^ k))).
  - rewrite sumn_scal. assert (H := catalan_sum_le_2 n).
    assert (Hp : 0 < 2 ^ p) by (apply pow_lt; lra).
    cbn [pow]. nra.
  - intros k Hlt. specialize (Hk k Hlt).
    replace p with ((p - 2 * k) + 2 * k)%nat at 2 by lia.
    rewrite pow_add, pow4_pow2. field. apply pow_nonzero. lra.
Qed.

(** ** Whole-column operations *)

Lemma set_col_last A x :
  (0 < Np.shape A)%Z ->
  Np.set_col A (-1) x
  = Ok (Np.mk_ndarray (Np.shape A)
          (fun a b => if (b =? Np.shape A - 1)%Z then x else Np.item A a b)).
Proof. intros H. unfold Np.set_col. now rewrite index_last. Qed.

Lemma for_div_cols (n : Z) (d : Z -> R) (P : Np.ndarray) :
  (n <= Np.shape P)%Z ->
  exists P', for_ (range n) (fun j P => Np.div_col P j (d j)) P = Ok P'
    /\ Np.shape P' = Np.shape P
    /\ (forall a b, (0 <= b < n)%Z -> Np.item P' a b = Np.item P a b / d b)
    /\ (forall a b, ~ (0 <= b < n)%Z -> Np.item P' a b = Np.item P a b).
Proof.
  intros Hn.
  destruct (for_inv
    (fun k P' => Np.shape P' = Np.shape P /\
       (forall a b, (0 <= b < Z.of_nat k)%Z -> Np.item P' a b = Np.item P a b / d b) /\
       (forall a b, ~ (0 <= b < Z.of_nat k)%Z -> Np.item P' a b = Np.item P a b))
    (range n) (fun j P => Np.div_col P j (d j)) P) as [P' [E [S' [I' U']]]].
  - split; [reflexivity|]. split; [intros; lia | reflexivity].
  - intros k x s0 Hk [Hs [Hi Hu]]. apply range_nth in Hk. destruct Hk as [-> Hk].
    unfold Np.div_col. rewrite index_in by lia. cbn [bind].
    eexists. split; [reflexivity|]. cbn [Np.shape Np.item].
    split; [exact Hs|]. split.
    + intros a b Hb. destruct (Z.eqb_spec b (Z.of_nat k)) as [->|Hne].
      * rewrite Hu by lia. reflexivity.
      * apply Hi. lia.
    + intros a b Hb. destruct (Z.eqb_spec b (Z.of_nat k)) as [->|Hne]; [lia|].
      apply Hu. lia.
  - exists P'. split; [exact E|]. split; [exact S'|].
    rewrite range_length in I', U'. split.
    + intros a b Hb. apply I'. lia.
    + intros a b Hb. apply U'. lia.
Qed.

(** ** The backward grid [P2] *)

Lemma P2_column (N j : Z) (C : Np.ndarray) :
  (0 <= j < N)%Z -> Np.shape C = (N + 1)%Z ->
  exists C',
    for_ (range_down j (-1)) (fun i P2 =>
      let kRange := range2 1 ((N - j) / 2 + 1) in
      a <- Np.get P2 (i + 1) (j + 1) ;;
      s <- sum_gen kRange (fun k =>
             b <- Np.get P2 (i + k) (j + 2 * k) ;;
             d <- numberPrimitiveDyckPaths k ;;
             Ok (b * d)) 0 ;;
      Np.set P2 i j (a + s)) C = Ok C'
    /\ Np.shape C' = (N + 1)%Z
    /\ (forall a b, b <> j -> Np.item C' a b = Np.item C a b)
    /\ (forall i, (0 <= i <= j)%Z -> Np.item C' i j = P2_entry N j C i)
    /\ (forall i, ~ (0 <= i <= j)%Z -> Np.item C' i j = Np.item C i j).
Proof.
  intros Hj HC.
  assert (Hdiv : (2 * ((N - j) / 2) <= N - j)%Z) by (apply Z.mul_div_le; lia).
  destruct (for_column_from (N + 1) j (P2_entry N j C) C
    (fun i P2 =>
      let kRange := range2 1 ((N - j) / 2 + 1) in
      a <- Np.get P2 (i + 1) (j + 1) ;;
      s <- sum_gen kRange (fun k =>
             b <- Np.get P2 (i + k) (j + 2 * k) ;;
             d <- numberPrimitiveDyckPaths k ;;
             Ok (b * d)) 0 ;;
      Np.set P2 i j (a + s))
    (range_down j (-1))) as [C1 [E1 [S1 [O1 [I1 U1]]]]].
  - apply NoDup_range_down.
  - lia.
  - intros i Hi. apply in_range_down in Hi. lia.
  - exact HC.
  - intros i C0 Hi Hs Ho Hc. apply in_range_down in Hi. cbv zeta.
    rewrite get_in by lia. cbn [bind].
    rewrite (sum_gen_pure _ (fun k => Np.item C (i + k) (j + 2 * k)
                                      * catalan (Z.to_nat (k - 1)))).
    + cbn [bind]. rewrite Ho by lia. reflexivity.
    + intros k Hk. apply in_range2 in Hk.
      rewrite get_in by lia. cbn [bind].
      rewrite numberPrimitiveDyckPaths_catalan by lia. cbn [bind].
      rewrite Ho by lia. reflexivity.
  - exists C1. split; [exact E1|]. split; [exact S1|]. split; [exact O1|]. split.
    + intros i Hi. apply I1. apply in_range_down. lia.
    + intros i Hi. apply U1. rewrite in_range_down. lia.
Qed.

Lemma P2_bound (N j : Z) (beta : Z -> R) :
  (0 <= j < N)%Z ->
  (forall c, (j < c <= N)%Z -> 0 <= beta c <= 2 ^ Z.to_nat (N - c)) ->
  0 <= beta (j + 1)%Z
       + (0 + sum (map (fun k => beta (j + 2 * k)%Z * catalan (Z.to_nat (k - 1)))
                       (range2 1 ((N - j) / 2 + 1))))
    <= 2 ^ Z.to_nat (N - j).
Proof.
  intros Hj Hb.
  assert (Hdiv : (2 * ((N - j) / 2) <= N - j)%Z) by (apply Z.mul_div_le; lia).
  assert (Hdiv0 : (0 <= (N - j) / 2)%Z) by (apply Z.div_pos; lia).
  set (s := sum _).
  assert (Hs0 : 0 <= s).
  { apply sum_map_nonneg. intros k Hk. apply in_range2 in Hk.
    apply Rmult_le_pos; [apply Hb; lia | apply catalan_nonneg]. }
  assert (Hs1 : s <= 2 ^ (Z.to_nat (N - j) - 1)).
  { unfold s. rewrite sum_range2.
    replace (Z.to_nat ((N - j) / 2 + 1 - 1)) with (Z.to_nat ((N - j) / 2)) by lia.
    destruct (Z.to_nat ((N - j) / 2)) as [|n'] eqn:En'.
    - rewrite sumn_0. apply pow_le. lra.
    - set (p := (Z.to_nat (N - j) - 2)%nat).
      replace (Z.to_nat (N - j) - 1)%nat with (S p) by lia.
      eapply Rle_trans; [|apply (catalan_weighted p (S n')); intros k Hk; lia].
      apply sumn_le. intros k Hk.
      replace (Z.to_nat (1 + Z.of_nat k - 1)) with k by lia.
      apply Rmult_le_compat_r; [apply catalan_nonneg|].
      replace (p - 2 * k)%nat with (Z.to_nat (N - (j + 2 * (1 + Z.of_nat k)))) by lia.
      apply Hb. lia. }
  assert (H1 := Hb (j + 1)%Z ltac:(lia)).
  replace (Z.to_nat (N - (j + 1))) with (Z.to_nat (N - j) - 1)%nat in H1 by lia.
  assert (Hpow : 2 ^ Z.to_nat (N - j) = 2 * 2 ^ (Z.to_nat (N - j) - 1)).
  { replace (Z.to_nat (N - j)) with (S (Z.to_nat (N - j) - 1)) at 1 by lia.
    reflexivity. }
  rewrite Hpow. split; lra.
Qed.

Lemma P2_entry_uniform (N j : Z) (beta : Z -> R) (C : Np.ndarray) (i : Z) :
  (0 <= j < N)%Z -> (0 <= i <= j)%Z ->
  (forall c a, (j < c <= N)%Z -> (0 <= a <= c)%Z -> Np.item C a c = beta c) ->
  P2_entry N j C i
  = beta (j + 1)%Z
    + (0 + sum (map (fun k => beta (j + 2 * k)%Z * catalan (Z.to_nat (k - 1)))
                    (range2 1 ((N - j) / 2 + 1)))).
Proof.
  intros Hj Hi HC.
  assert (Hdiv : (2 * ((N - j) / 2) <= N - j)%Z) by (apply Z.mul_div_le; lia).
  unfold P2_entry. rewrite HC by lia. do 2 f_equal.
  apply sum_map_ext. intros k Hk. apply in_range2 in Hk.
  rewrite HC by lia. reflexivity.
Qed.

Lemma P2_counts (N : Z) (C : Np.ndarray) :
  (0 <= N)%Z -> Np.shape C = (N + 1)%Z ->
  (forall a, Np.item C a N = 1) ->
  (forall a b, b <> N -> Np.item C a b = 0) ->
  exists C' beta,
    for_ (range_down (N - 1) (-1)) (fun j P2 =>
      for_ (range_down j (-1)) (fun i P2 =>
        let kRange := range2 1 ((N - j) / 2 + 1) in
        a <- Np.get P2 (i + 1) (j + 1) ;;
        s <- sum_gen kRange (fun k =>
               b <- Np.get P2 (i + k) (j + 2 * k) ;;
               d <- numberPrimitiveDyckPaths k ;;
               Ok (b * d)) 0 ;;
        Np.set P2 i j (a + s)) P2) C = Ok C'
    /\ Np.shape C' = (N + 1)%Z
    /\ (forall c, (0 <= c <= N)%Z -> 0 <= beta c <= 2 ^ Z.to_nat (N - c))
    /\ (forall c a, (0 <= c <= N)%Z -> (0 <= a <= c)%Z -> Np.item C' a c = beta c)
    /\ (forall c a, c <> N -> (a < 0 \/ c < a)%Z -> Np.item C' a c = 0)
    /\ (forall a, Np.item C' a N = 1).
Proof.
  intros HN HC Hlast Hzero.
  destruct (for_inv
    (fun n C' =>
       Np.shape C' = (N + 1)%Z /\
       exists beta,
         (forall c, (N - Z.of_nat n <= c <= N)%Z ->
                    0 <= beta c <= 2 ^ Z.to_nat (N - c)) /\
         (forall c a, (N - Z.of_nat n <= c <= N)%Z -> (0 <= a <= c)%Z ->
                      Np.item C' a c = beta c) /\
         (forall c a, c <> N -> (a < 0 \/ c < a \/ c < N - Z.of_nat n)%Z ->
                      Np.item C' a c = 0) /\
         (forall a, Np.item C' a N = 1))
    (range_down (N - 1) (-1)) (fun j P2 =>
      for_ (range_down j (-1)) (fun i P2 =>
        let kRange := range2 1 ((N - j) / 2 + 1) in
        a <- Np.get P2 (i + 1) (j + 1) ;;
        s <- sum_gen kRange (fun k =>
               b <- Np.get P2 (i + k) (j + 2 * k) ;;
               d <- numberPrimitiveDyckPaths k ;;
               Ok (b * d)) 0 ;;
        Np.set P2 i j (a + s)) P2) C)
    as [C' [E [S' [beta [B' [U' [Z' L']]]]]]].
  - split; [exact HC|]. exists (fun _ => 1). split; [|split; [|split]].
    + intros c Hc. replace c with N by lia. rewrite Z.sub_diag. cbn. lra.
    + intros c a Hc Ha. replace c with N by lia. apply Hlast.
    + intros c a Hc _. now apply Hzero.
    + exact Hlast.
  - intros n x s0 Hn [Hs [beta [Hb [Hu [Hz Hl]]]]].
    apply range_down_nth in Hn. destruct Hn as [-> Hn].
    set (j := (N - 1 - Z.of_nat n)%Z).
    destruct (P2_column N j s0 ltac:(subst j; lia) Hs) as [C1 [E1 [S1 [O1 [I1 U1]]]]].
    exists C1. split; [exact E1|]. split; [exact S1|].
    set (B := beta (j + 1)%Z
              + (0 + sum (map (fun k => beta (j + 2 * k)%Z * catalan (Z.to_nat (k - 1)))
                              (range2 1 ((N - j) / 2 + 1))))).
    exists (fun c => if (c =? j)%Z then B else beta c).
    split; [|split; [|split]].
    + intros c Hc. destruct (Z.eqb_spec c j) as [->|Hne].
      * apply P2_bound; [subst j; lia|]. intros c Hc'. apply Hb. subst j; lia.
      * apply Hb. subst j; lia.
    + intros c a Hc Ha. destruct (Z.eqb_spec c j) as [->|Hne].
      * rewrite I1 by exact Ha.
        apply P2_entry_uniform; [subst j; lia | exact Ha |].
        intros c a' Hc' Ha'. apply Hu; [subst j; lia | exact Ha'].
      * rewrite O1 by exact Hne. apply Hu; [subst j; lia | exact Ha].
    + intros c a Hc Ha. destruct (Z.eq_dec c j) as [->|Hne].
      * rewrite U1 by (subst j; lia). apply Hz; [exact Hc | subst j; lia].
      * rewrite O1 by exact Hne. apply Hz; [exact Hc | subst j; lia].
    + intros a. rewrite O1 by (subst j; lia). apply Hl.
  - rewrite range_down_length in B', U', Z'.
    exists C', beta. split; [exact E|]. split; [exact S'|].
    split; [|split; [|split]].
    + intros c Hc. apply B'. lia.
    + intros c a Hc Ha. apply U'; lia.
    + intros c a Hc Ha. apply Z'; [exact Hc | lia].
    + exact L'.
Qed.

Lemma range2_app (a b c : Z) :
  (a <= b <= c)%Z -> range2 a c = range2 a b ++ range2 b c.
Proof.
  intros H. remember (Z.to_nat (c - b)) as n eqn:En.
  revert c En H. induction n as [|n IH]; intros c En H.
  - replace c with b by lia. rewrite (range2_empty b b) by lia.
    now rewrite app_nil_r.
  - replace c with (c - 1 + 1)%Z by lia.
    rewrite (range2_snoc a (c - 1)), (range2_snoc b (c - 1)) by lia.
    rewrite (IH (c - 1)%Z) by lia. now rewrite app_assoc.
Qed.

Lemma range_split (a b : Z) : (0 <= a <= b)%Z -> range b = range a ++ range2 a b.
Proof. intros H. unfold range. now apply range2_app. Qed.

Lemma sum_first_only (f : Z -> R) (n : Z) :
  (0 < n)%Z -> (forall i, (1 <= i < n)%Z -> f i = 0) ->
  sum (map f (range n)) = f 0%Z.
Proof.
  intros Hn Hf. unfold range. rewrite range2_cons by lia. cbn [map].
  rewrite sum_cons.
  rewrite (sum_map_ext f (fun _ => 0)).
  - rewrite sum_map_const. lra.
  - intros i Hi. apply in_range2 in Hi. apply Hf. lia.
Qed.

Lemma P2_grid (N : Z) :
  (0 <= N)%Z ->
  exists P2 gamma,
    expectedMaxPrice_P2 numberPrimitiveDyckPaths N = Ok P2
    /\ Np.shape P2 = (N + 1)%Z
    /\ (forall c, (0 <= c <= N)%Z -> 0 <= gamma c <= 1)
    /\ (forall c a, (0 <= c <= N)%Z -> (0 <= a <= c)%Z -> Np.item P2 a c = gamma c)
    /\ (forall c a, (0 <= c < N)%Z -> (c < a)%Z -> Np.item P2 a c = 0)
    /\ gamma N = 1.
Proof.
  intros HN. unfold expectedMaxPrice_P2, Np.zeros.
  destruct (Z.ltb_spec (N + 1) 0); [lia|]. cbn [bind].
  rewrite set_col_last by (cbn [Np.shape]; lia). cbn [bind Np.shape Np.item].
  destruct (P2_counts N
    (Np.mk_ndarray (N + 1) (fun _ b => if (b =? N + 1 - 1)%Z then 1 else 0)) HN eq_refl)
    as [C1 [beta [E1 [S1 [B1 [U1 [Z1 L1]]]]]]].
  - intros a. cbn [Np.item]. destruct (Z.eqb_spec N (N + 1 - 1)); [reflexivity | lia].
  - intros a b Hb. cbn [Np.item]. destruct (Z.eqb_spec b (N + 1 - 1)); [lia | reflexivity].
  - cbv zeta in E1. rewrite E1. cbn [bind].
    destruct (for_div_cols (N + 1) (fun j => 2 ** (N - j)) C1 ltac:(lia))
      as [P2 [E2 [S2 [I2 _]]]].
    rewrite E2. exists P2, (fun c => beta c / 2 ** (N - c)).
    split; [reflexivity|]. split; [congruence|].
    split; [|split; [|split]].
    + intros c Hc. rewrite powerRZ_of_nat by lia.
      assert (Hp : 0 < 2 ^ Z.to_nat (N - c)) by (apply pow_lt; lra).
      destruct (B1 c Hc) as [Hb0 Hb1]. split.
      * apply Rmult_le_pos; [exact Hb0 | apply Rlt_le, Rinv_0_lt_compat, Hp].
      * apply Rmult_le_reg_r with (2 ^ Z.to_nat (N - c)); [exact Hp|].
        unfold Rdiv. rewrite Rmult_assoc, Rinv_l by lra. lra.
    + intros c a Hc Ha. rewrite I2 by lia. rewrite U1 by lia. reflexivity.
    + intros c a Hc Ha. rewrite I2 by lia. rewrite Z1 by lia. unfold Rdiv. ring.
    + rewrite Z.sub_diag. rewrite <- (U1 N N) by lia. rewrite L1. cbn. lra.
Qed.

(** ** The forward grid [P1] *)

Lemma P1_column (N j : Z) (C : Np.ndarray) :
  (3 <= j <= N)%Z -> Np.shape C = (N + 1)%Z ->
  exists C',
    for_ (range (N + 1)) (fun i P1 =>
      let kRange := range (Z.min (i + 1) ((j - 1) / 2 + 1)) in
      s <- sum_gen kRange (fun k =>
             a <- Np.get P1 (i - k) (j - 1 - 2 * k) ;;
             d <- numberDyckPaths k ;;
             Ok (a * d)) 0 ;;
      Np.set P1 i j s) C = Ok C'
    /\ Np.shape C' = (N + 1)%Z
    /\ (forall a b, b <> j -> Np.item C' a b = Np.item C a b)
    /\ (forall i, (0 <= i <= N)%Z -> Np.item C' i j = P1_entry j C i)
    /\ (forall i, ~ (0 <= i <= N)%Z -> Np.item C' i j = Np.item C i j).
Proof.
  intros Hj HC.
  assert (Hdiv : (2 * ((j - 1) / 2) <= j - 1)%Z) by (apply Z.mul_div_le; lia).
  destruct (for_column_from (N + 1) j (P1_entry j C) C
    (fun i P1 =>
      let kRange := range (Z.min (i + 1) ((j - 1) / 2 + 1)) in
      s <- sum_gen kRange (fun k =>
             a <- Np.get P1 (i - k) (j - 1 - 2 * k) ;;
             d <- numberDyckPaths k ;;
             Ok (a * d)) 0 ;;
      Np.set P1 i j s)
    (range (N + 1))) as [C1 [E1 [S1 [O1 [I1 U1]]]]].
  - apply NoDup_range.
  - lia.
  - intros i Hi. apply in_range in Hi. lia.
  - exact HC.
  - intros i C0 Hi Hs Ho Hc. apply in_range in Hi. cbv zeta.
    rewrite (sum_gen_pure _ (fun k => Np.item C (i - k) (j - 1 - 2 * k)
                                      * catalan (Z.to_nat k))).
    + reflexivity.
    + intros k Hk. apply in_range in Hk.
      rewrite get_in by lia. cbn [bind].
      rewrite numberDyckPaths_catalan by lia. cbn [bind].
      rewrite Ho by lia. reflexivity.
  - exists C1. split; [exact E1|]. split; [exact S1|]. split; [exact O1|]. split.
    + intros i Hi. apply I1. apply in_range. lia.
    + intros i Hi. apply U1. rewrite in_range. lia.
Qed.

Lemma P1_colsum_bound (N j : Z) (C : Np.ndarray) :
  (1 <= j)%Z -> (0 <= N)%Z ->
  (forall a b, 0 <= Np.item C a b) ->
  (forall c, (0 <= c < j)%Z ->
             sum (map (fun i => Np.item C i c) (range (N + 1))) <= 2 ^ Z.to_nat c) ->
  sum (map (P1_entry j C) (range (N + 1))) <= 2 ^ Z.to_nat j.
Proof.
  intros Hj HN Hnn Hcs.
  assert (Hdiv : (2 * ((j - 1) / 2) <= j - 1)%Z) by (apply Z.mul_div_le; lia).
  assert (Hdiv0 : (0 <= (j - 1) / 2)%Z) by (apply Z.div_pos; lia).
  set (n := Z.to_nat (N + 1)).
  set (M := S (Z.to_nat ((j - 1) / 2))).
  set (G := fun (k r : nat) =>
              Np.item C (Z.of_nat r) (j - 1 - 2 * Z.of_nat k) * catalan k).
  assert (E1 : sum (map (P1_entry j C) (range (N + 1)))
               = sumn (fun i => sumn (fun k => G k (i - k)%nat) (Nat.min (S i) M)) n).
  { rewrite sum_range. apply sumn_ext. intros i Hi.
    unfold P1_entry. rewrite Rplus_0_l, sum_range.
    replace (Z.to_nat (Z.min (Z.of_nat i + 1) ((j - 1) / 2 + 1)))
      with (Nat.min (S i) M) by (subst M; lia).
    apply sumn_ext. intros k Hk. unfold G. rewrite Nat2Z.id.
    replace (Z.of_nat (i - k)) with (Z.of_nat i - Z.of_nat k)%Z by lia.
    reflexivity. }
  rewrite E1, triangle_swap.
  set (p := Z.to_nat (j - 1)).
  replace (Z.to_nat j) with (S p) by (subst p; lia).
  eapply Rle_trans; [|apply (catalan_weighted p M); intros k Hk; subst p M; lia].
  apply sumn_le. intros k Hk.
  eapply Rle_trans.
  { apply (sumn_le_length (G k) (n - k) n); [lia|].
    intros r. unfold G. apply Rmult_le_pos; [apply Hnn | apply catalan_nonneg]. }
  unfold G.
  rewrite (sumn_ext _ (fun r => catalan k
                               * Np.item C (Z.of_nat r) (j - 1 - 2 * Z.of_nat k)))
    by (intros; ring).
  rewrite sumn_scal, Rmult_comm.
  apply Rmult_le_compat_r; [apply catalan_nonneg|].
  specialize (Hcs (j - 1 - 2 * Z.of_nat k)%Z ltac:(subst M; lia)).
  rewrite sum_range in Hcs.
  replace (p - 2 * k)%nat with (Z.to_nat (j - 1 - 2 * Z.of_nat k)) by (subst p; lia).
  exact Hcs.
Qed.

Lemma P1_entry_nonneg (j : Z) (C : Np.ndarray) (i : Z) :
  (forall a b, 0 <= Np.item C a b) -> 0 <= P1_entry j C i.
Proof.
  intros Hnn. unfold P1_entry. rewrite Rplus_0_l.
  apply sum_map_nonneg. intros k _.
  apply Rmult_le_pos; [apply Hnn | apply catalan_nonneg].
Qed.

Lemma P1_counts (N : Z) (C : Np.ndarray) :
  (2 <= N)%Z -> Np.shape C = (N + 1)%Z ->
  (forall a b, 0 <= Np.item C a b) ->
  (forall c, (0 <= c < 3)%Z ->
             sum (map (fun i => Np.item C i c) (range (N + 1))) <= 2 ^ Z.to_nat c) ->
  exists C',
    for_ (range2 3 (N + 1)) (fun j P1 =>
      for_ (range (N + 1)) (fun i P1 =>
        let kRange := range (Z.min (i + 1) ((j - 1) / 2 + 1)) in
        s <- sum_gen kRange (fun k =>
               a <- Np.get P1 (i - k) (j - 1 - 2 * k) ;;
               d <- numberDyckPaths k ;;
               Ok (a * d)) 0 ;;
        Np.set P1 i j s) P1) C = Ok C'
    /\ Np.shape C' = (N + 1)%Z
    /\ (forall a b, 0 <= Np.item C' a b)
    /\ (forall c, (0 <= c <= N)%Z ->
          sum (map (fun i => Np.item C' i c) (range (N + 1))) <= 2 ^ Z.to_nat c)
    /\ (forall a b, (b < 3)%Z -> Np.item C' a b = Np.item C a b).
Proof.
  intros HN HC Hnn Hcs.
  destruct (for_inv
    (fun n C' =>
       Np.shape C' = (N + 1)%Z /\
       (forall a b, 0 <= Np.item C' a b) /\
       (forall c, (0 <= c < 3 + Z.of_nat n)%Z ->
          sum (map (fun i => Np.item C' i c) (range (N + 1))) <= 2 ^ Z.to_nat c) /\
       (forall a b, (b < 3)%Z -> Np.item C' a b = Np.item C a b))
    (range2 3 (N + 1)) (fun j P1 =>
      for_ (range (N + 1)) (fun i P1 =>
        let kRange := range (Z.min (i + 1) ((j - 1) / 2 + 1)) in
        s <- sum_gen kRange (fun k =>
               a <- Np.get P1 (i - k) (j - 1 - 2 * k) ;;
               d <- numberDyckPaths k ;;
               Ok (a * d)) 0 ;;
        Np.set P1 i j s) P1) C)
    as [C' [E [S' [NN' [CS' F']]]]].
  - split; [exact HC|]. split; [exact Hnn|]. split; [|reflexivity].
    intros c Hc. apply Hcs. lia.
  - intros n x s0 Hn [Hs [Hnn0 [Hcs0 Hf0]]].
    apply range2_nth in Hn. destruct Hn as [-> Hn].
    set (j := (3 + Z.of_nat n)%Z).
    destruct (P1_column N j s0 ltac:(subst j; lia) Hs) as [C1 [E1 [S1 [O1 [I1 U1]]]]].
    exists C1. split; [exact E1|]. split; [exact S1|].
    split; [|split].
    + intros a b. destruct (Z.eq_dec b j) as [->|Hne].
      * destruct (Z_le_dec 0 a) as [Ha0|Ha0];
          [destruct (Z_le_dec a N) as [HaN|HaN]|].
        -- rewrite I1 by lia. now apply P1_entry_nonneg.
        -- rewrite U1 by lia. apply Hnn0.
        -- rewrite U1 by lia. apply Hnn0.
      * rewrite O1 by exact Hne. apply Hnn0.
    + intros c Hc. destruct (Z.eq_dec c j) as [->|Hne].
      * rewrite (sum_map_ext _ (P1_entry j s0)).
        -- apply P1_colsum_bound; [subst j; lia | lia | exact Hnn0 |].
           intros c Hc'. apply Hcs0. subst j; lia.
        -- intros i Hi. apply in_range in Hi. apply I1. lia.
      * rewrite (sum_map_ext _ (fun i => Np.item s0 i c)).
        -- apply Hcs0. subst j; lia.
        -- intros i _. now apply O1.
    + intros a b Hb. rewrite O1 by (subst j; lia). now apply Hf0.
  - rewrite range2_length in CS'.
    exists C'. split; [exact E|]. split; [exact S'|]. split; [exact NN'|].
    split; [|exact F']. intros c Hc. apply CS'. lia.
Qed.

Lemma sum_map_div {X : Type} (f : X -> R) (d : R) (l : list X) :
  sum (map (fun x => f x / d) l) = sum (map f l) / d.
Proof.
  unfold Rdiv. rewrite (sum_map_ext _ (fun x => / d * f x)) by (intros; ring).
  rewrite sum_map_scal. ring.
Qed.

Lemma P1_grid (N : Z) :
  (2 <= N)%Z ->
  exists P1,
    expectedMaxPrice_P1 N = Ok P1
    /\ Np.shape P1 = (N + 1)%Z
    /\ (forall a b, (0 <= b <= N)%Z -> 0 <= Np.item P1 a b)
    /\ (forall c, (0 <= c <= N)%Z -> Np.col_sum P1 c <= 1)
    /\ Np.col_sum P1 0 = 1
    /\ Np.col_sum P1 1 = 1 / 2
    /\ Np.col_sum P1 2 = 1 / 4.
Proof.
  intros HN. unfold expectedMaxPrice_P1, Np.zeros.
  destruct (Z.ltb_spec (N + 1) 0); [lia|]. cbn [bind].
  rewrite set_in by (cbn [Np.shape]; lia). cbn [bind].
  rewrite set_in by (cbn [Np.shape]; lia). cbn [bind].
  rewrite set_in by (cbn [Np.shape]; lia). cbn [bind Np.shape Np.item].
  set (A0 := Np.mk_ndarray (N + 1) _).
  assert (HA0 : forall c, (0 <= c < 3)%Z ->
                  sum (map (fun i => Np.item A0 i c) (range (N + 1))) = 1).
  { intros c Hc. rewrite sum_first_only; [|lia|].
    - unfold A0; cbn [Np.item].
      assert (Hc3 : (c = 0 \/ c = 1 \/ c = 2)%Z) by lia.
      destruct Hc3 as [->|[->| ->]]; reflexivity.
    - intros i Hi. unfold A0; cbn [Np.item].
      destruct (Z.eqb_spec i 0); [lia|]. reflexivity. }
  destruct (P1_counts N A0 HN eq_refl) as [C1 [E1 [S1 [NN1 [CS1 F1]]]]].
  - intros a b. unfold A0; cbn [Np.item].
    repeat match goal with |- context [if ?c then _ else _] => destruct c end; lra.
  - intros c Hc. rewrite HA0 by exact Hc. apply pow_R1_Rle. lra.
  - cbv zeta in E1. rewrite E1. cbn [bind].
    destruct (for_div_cols (N + 1) (fun j => 2 ** j) C1 ltac:(lia))
      as [P1 [E2 [S2 [I2 _]]]].
    rewrite E2. exists P1. split; [reflexivity|]. split; [congruence|].
    assert (Hcol : forall c, (0 <= c <= N)%Z ->
              Np.col_sum P1 c
              = sum (map (fun i => Np.item C1 i c) (range (N + 1))) / 2 ^ Z.to_nat c).
    { intros c Hc. unfold Np.col_sum. rewrite S2, S1.
      rewrite <- sum_map_div. apply sum_map_ext. intros i _.
      rewrite I2 by lia. now rewrite powerRZ_of_nat by lia. }
    assert (Hfirst : forall c, (0 <= c < 3)%Z ->
              Np.col_sum P1 c = 1 / 2 ^ Z.to_nat c).
    { intros c Hc. rewrite Hcol by lia. f_equal.
      rewrite <- (HA0 c Hc). apply sum_map_ext. intros i _. apply F1. lia. }
    split; [|split; [|split; [|split]]].
    + intros a b Hb. rewrite I2 by lia.
      apply Rmult_le_pos; [apply NN1|].
      apply Rlt_le, Rinv_0_lt_compat, powerRZ_lt. lra.
    + intros c Hc. rewrite Hcol by exact Hc.
      assert (Hp : 0 < 2 ^ Z.to_nat c) by (apply pow_lt; lra).
      apply Rmult_le_reg_r with (2 ^ Z.to_nat c); [exact Hp|].
      unfold Rdiv. rewrite Rmult_assoc, Rinv_l by lra.
      specialize (CS1 c Hc). lra.
    + rewrite Hfirst by lia. replace (Z.to_nat 0) with 0%nat by lia. cbn [pow]. lra.
    + rewrite Hfirst by lia. replace (Z.to_nat 1) with 1%nat by lia. cbn [pow]. lra.
    + rewrite Hfirst by lia. replace (Z.to_nat 2) with 2%nat by lia. cbn [pow]. lra.
Qed.

Lemma P2_col_sum (N : Z) (P2 : Np.ndarray) (gamma : Z -> R) (c : Z) :
  Np.shape P2 = (N + 1)%Z -> (0 <= c <= N)%Z ->
  (forall a, (0 <= a <= c)%Z -> Np.item P2 a c = gamma c) ->
  (forall a, (c < a)%Z -> (c < N)%Z -> Np.item P2 a c = 0) ->
  Np.col_sum P2 c = IZR (c + 1) * gamma c.
Proof.
  intros Hs Hc Hu Hz. unfold Np.col_sum. rewrite Hs.
  rewrite (range_split (c + 1) (N + 1)) by lia.
  rewrite map_app, sum_app.
  rewrite (sum_map_ext _ (fun _ => gamma c)).
  2:{ intros a Ha. apply in_range in Ha. apply Hu. lia. }
  rewrite (sum_map_ext (fun i => Np.item P2 i c) (fun _ => 0) (range2 (c + 1) (N + 1))).
  2:{ intros a Ha. apply in_range2 in Ha. apply Hz; lia. }
  rewrite !sum_map_const, range_length, INR_IZR_INZ, Z2Nat.id by lia. lra.
Qed.

(** ** The price grid and the whole engine *)

Lemma for_keeps_shape {X : Type} (n : Z) (l : list X)
      (body : X -> Np.ndarray -> result Np.ndarray) (C : Np.ndarray) :
  Np.shape C = n ->
  (forall x C0, In x l -> Np.shape C0 = n ->
                exists C1, body x C0 = Ok C1 /\ Np.shape C1 = n) ->
  exists C', for_ l body C = Ok C' /\ Np.shape C' = n.
Proof.
  intros HC Hbody.
  destruct (for_inv (fun _ C' => Np.shape C' = n) l body C HC) as [C' [E S']].
  - intros k x s0 Hk Hs. apply (Hbody x s0); [|exact Hs].
    eapply nth_error_In; exact Hk.
  - exists C'. split; assumption.
Qed.

Lemma S_grid (N : Z) (v : R) :
  (0 <= N)%Z -> exists S, expectedMaxPrice_S N v = Ok S /\ Np.shape S = (N + 1)%Z.
Proof.
  intros HN. unfold expectedMaxPrice_S, Np.zeros.
  destruct (Z.ltb_spec (N + 1) 0); [lia|]. cbn [bind].
  rewrite set_in by (cbn [Np.shape]; lia). cbn [bind Np.shape].
  apply for_keeps_shape; [reflexivity|].
  intros j C0 Hj Hs0. apply in_range2 in Hj.
  apply for_keeps_shape; [exact Hs0|].
  intros i C1 Hi Hs1. apply in_range in Hi.
  rewrite set_in by lia. eexists. split; [reflexivity | exact Hs1].
Qed.

Lemma expectedMaxPrice_returns (N : Z) (v : R) :
  (2 <= N)%Z -> exists x, expectedMaxPrice N v = Ok x.
Proof.
  intros HN. unfold expectedMaxPrice, expectedMaxPrice_with.
  destruct (P1_grid N HN) as [P1 [E1 [S1 _]]].
  destruct (P2_grid N ltac:(lia)) as [P2 [gamma [E2 [S2 _]]]].
  destruct (S_grid N v ltac:(lia)) as [S [E3 S3]].
  rewrite E1, E2, E3. cbn [bind]. unfold Np.mul.
  rewrite S1, S2, Z.eqb_refl. cbn [bind Np.shape].
  rewrite S3, Z.eqb_refl. cbn [bind]. eexists. reflexivity.
Qed.

Lemma expectedMaxPrice_too_few_periods (N : Z) (v : R) :
  (N < 2)%Z ->
  expectedMaxPrice N v = Raise (if (N <? -1)%Z then ValueError else IndexError).
Proof.
  intros HN. unfold expectedMaxPrice, expectedMaxPrice_with, expectedMaxPrice_P1.
  destruct (Z.ltb_spec N (-1)) as [Hlt|Hge].
  - unfold Np.zeros. destruct (Z.ltb_spec (N + 1) 0); [reflexivity | lia].
  - assert (HN3 : (N = -1 \/ N = 0 \/ N = 1)%Z) by lia.
    destruct HN3 as [->|[->| ->]]; reflexivity.
Qed.

(** ** The engine reads the primitive-path counter at positive arguments only *)

Lemma expectedMaxPrice_P2_ext (prim1 prim2 : Z -> result R) (N : Z) :
  (forall k, (1 <= k)%Z -> prim1 k = prim2 k) ->
  expectedMaxPrice_P2 prim1 N = expectedMaxPrice_P2 prim2 N.
Proof.
  intros Hprim. unfold expectedMaxPrice_P2.
  destruct (Np.zeros (N + 1)) as [Z0|e]; [|reflexivity]. cbn [bind].
  destruct (Np.set_col Z0 (-1) 1) as [Z1|e]; [|reflexivity]. cbn [bind].
  f_equal. apply for_ext. intros j C0 _. apply for_ext. intros i C1 _.
  cbv zeta. f_equal. apply functional_extensionality. intros a.
  f_equal. apply sum_gen_ext. intros k Hk. apply in_range2 in Hk.
  f_equal. apply functional_extensionality. intros b.
  rewrite Hprim by lia. reflexivity.
Qed.

Lemma expectedMaxPrice_with_ext (prim1 prim2 : Z -> result R) (N : Z) (v : R) :
  (forall k, (1 <= k)%Z -> prim1 k = prim2 k) ->
  expectedMaxPrice_with prim1 N v = expectedMaxPrice_with prim2 N v.
Proof.
  intros Hprim. unfold expectedMaxPrice_with.
  now rewrite (expectedMaxPrice_P2_ext prim1 prim2 N Hprim).
Qed.

(** ** The binomial formula at the ends of the bracket *)

Lemma binomialPrice_expect (N : Z) (v K : R) :
  (0 <= N)%Z ->
  binomialPrice N v K = lattice_expect v (call_payoff K) (Z.to_nat N) 1.
Proof.
  intros HN.
  assert (H1 := EuropeanCallValue_binomialPrice N v K HN).
  rewrite EuropeanCallValue_expect in H1 by exact HN.
  injection H1 as H1. now symmetry.
Qed.

Lemma lattice_expect_v0 (phi : R -> R) (m : nat) :
  forall s, lattice_expect 0 phi m s = phi s.
Proof.
  induction m as [|m IH]; intros s; [reflexivity|].
  cbn [lattice_expect]. rewrite !IH.
  replace (s * (1 + 0)) with s by ring. replace (s * (1 - 0)) with s by ring.
  field.
Qed.

Lemma lattice_expect_v1 (phi : R -> R) (m : nat) :
  forall s, lattice_expect 1 phi m s
            = phi (2 ^ m * s) / 2 ^ m + (1 - / 2 ^ m) * phi 0.
Proof.
  induction m as [|m IH]; intros s.
  - cbn [lattice_expect pow]. replace (1 * s) with s by ring. field.
  - cbn [lattice_expect pow]. rewrite !IH.
    replace (s * (1 - 1)) with 0 by ring.
    replace (2 ^ m * (s * (1 + 1))) with (2 * 2 ^ m * s) by ring.
    replace (2 ^ m * 0) with 0 by ring.
    assert (H2 : 2 ^ m <> 0) by (apply pow_nonzero; lra).
    field. exact H2.
Qed.

Lemma binomialPrice_at_0 (N : Z) (K : R) :
  (0 <= N)%Z -> binomialPrice N 0 K = Rmax 0 (1 - K).
Proof.
  intros HN. rewrite binomialPrice_expect by exact HN.
  now rewrite lattice_expect_v0.
Qed.

Lemma binomialPrice_at_1 (N : Z) (K : R) :
  (0 <= N)%Z -> 0 <= K -> binomialPrice N 1 K = Rmax 0 (1 - K / 2 ** N).
Proof.
  intros HN HK. rewrite binomialPrice_expect by exact HN.
  rewrite lattice_expect_v1, (powerRZ_of_nat 2 N HN). unfold call_payoff.
  set (q := 2 ^ Z.to_nat N).
  assert (Hq : 0 < q) by (apply pow_lt; lra).
  replace (Rmax 0 (0 - K)) with 0
    by (unfold Rmax; destruct (Rle_dec 0 (0 - K)); lra).
  replace (q * 1 - K) with (q * (1 - K / q)) by (field; lra).
  rewrite <- (Rmult_0_r q) at 1. rewrite RmaxRmult by lra.
  field. lra.
Qed.

(** ** Calibration on a single instrument *)


(** The countdown loop of the multi-instrument calibration always ends, with
    [j = 1]. *)
Lemma while_j_ends (fuel : nat) :
  forall j, (1 <= j)%Z -> (Z.to_nat j <= S fuel)%nat -> while_j fuel j = 1%Z.
Proof.
  induction fuel as [|fuel IH]; intros j Hj Hfuel.
  - cbn [while_j]. lia.
  - cbn [while_j]. destruct (Z.ltb_spec 1 j); [|lia].
    apply IH; lia.
Qed.

(** ** What the valuators do outside the parameter domain *)

Lemma valuators_negative_periods (N : Z) (v K : R) :
  (N < 0)%Z ->
  EuropeanCallValue N v K = Raise (if (N <? -1)%Z then ValueError else IndexError)
  /\ AmericanCallValue N v K = Raise (if (N <? -1)%Z then ValueError else IndexError).
Proof.
  intros HN. unfold EuropeanCallValue, AmericanCallValue.
  destruct (Z.ltb_spec N (-1)) as [Hlt|Hge].
  - unfold Np.zeros. destruct (Z.ltb_spec (N + 1) 0); [split; reflexivity | lia].
  - assert (N = -1)%Z as -> by lia. split; reflexivity.
Qed.

Lemma Rmax_0_pos (x : R) : 0 <= x -> Rmax 0 x = x.
Proof. intros H. apply Rmax_right. exact H. Qed.


Lemma valuators_unchecked_example :
  EuropeanCallValue 0 2 (-1) = Ok 2 /\ AmericanCallValue 0 2 (-1) = Ok 2.
Proof.
  assert (E : EuropeanCallValue 0 2 (-1) = Ok 2).
  { rewrite EuropeanCallValue_back by lia. f_equal.
    change (Z.to_nat 0) with O. cbn [back]. unfold payoff.
    change (0 - 0)%Z with 0%Z. cbn [powerRZ]. rewrite Rmax_0_pos; lra. }
  split; [exact E|]. rewrite American_European_same by lia. exact E.
Qed.

(** ** The American value is at least the European one, node by node *)


(** ** The multiplicative formula is the binomial coefficient *)

Lemma binom_succ_r (n k : nat) :
  (S k * binom n (S k) = (n - k) * binom n k)%nat.
Proof.
  destruct (Nat.le_gt_cases k n) as [Hk|Hk].
  - assert (H := binom_absorb n k).
    change (binom (S n) (S k)) with (binom n k + binom n (S k))%nat in H.
    replace (S n) with (S k + (n - k))%nat in H at 1 by lia. nia.
  - rewrite (binom_gt n (S k)) by lia. replace (n - k)%nat with O by lia. lia.
Qed.

Lemma choose_succ (n k : Z) :
  (0 <= k)%Z -> choose n (k + 1) = (choose n k * (n - k) / (k + 1))%Z.
Proof.
  intros Hk. unfold choose. rewrite (range2_snoc 1 (k + 1)) by lia.
  rewrite fold_left_app. cbn [fold_left]. do 2 f_equal. lia.
Qed.

Lemma choose_binom (n k : nat) :
  (k <= n)%nat -> choose (Z.of_nat n) (Z.of_nat k) = Z.of_nat (binom n k).
Proof.
  induction k as [|k IH]; intros Hk.
  - rewrite binom_0. reflexivity.
  - replace (Z.of_nat (S k)) with (Z.of_nat k + 1)%Z by lia.
    rewrite choose_succ by lia. rewrite IH by lia.
    assert (H := binom_succ_r n k). apply (f_equal Z.of_nat) in H.
    rewrite !Nat2Z.inj_mul, Nat2Z.inj_sub in H by lia.
    symmetry. apply Z.div_unique_exact; [lia|]. lia.
Qed.

(** ** Binary64: the valuators use [pow] at the exponents 0..N only *)

Lemma B64_European_pow_ext (pow1 pow2 : float -> Z -> result float) (N : Z)
      (v K : float) :
  (forall x n, (0 <= n <= N)%Z -> pow1 x n = pow2 x n) ->
  B64.EuropeanCallValue pow1 N v K = B64.EuropeanCallValue pow2 N v K.
Proof.
  intros H. unfold B64.EuropeanCallValue.
  destruct (B64.zeros (N + 1)) as [C|e]; [|reflexivity]. cbn [bind].
  match goal with
  | |- bind (for_ ?l ?b1 ?s) _ = bind (for_ ?l ?b2 ?s) _ =>
      rewrite (for_ext b1 b2 l s); [reflexivity|]
  end.
  intros i C0 Hi. apply in_range in Hi. rewrite !H by lia. reflexivity.
Qed.


Lemma pow_exact_01 (pow : float -> Z -> result float) :
  B64.pow_exact pow ->
  forall x n, (0 <= n <= 1)%Z -> pow x n = B64.pow01 x n.
Proof.
  intros [H0 H1] x n Hn. assert (Hc : n = 0%Z \/ n = 1%Z) by lia.
  destruct Hc as [-> | ->]; [apply H0 | apply H1].
Qed.

(** In binary64 the European price is not monotone in [v] to the last
    digit: with one period and [K = 0.01] it is [0.9900000000000001] at
    [v = 0.87] and [0.99] at [v = 0.88]. *)
Lemma B64_European_rounding (pow : float -> Z -> result float) :
  B64.pow_exact pow ->
  exists p1 p2,
    B64.EuropeanCallValue pow 1 (87 / 100) (1 / 100) = Ok p1
    /\ B64.EuropeanCallValue pow 1 (88 / 100) (1 / 100) = Ok p2
    /\ (p2 <? p1)%float = true.
Proof.
  intros Hp.
  exists (next_up (99 / 100))%float, (99 / 100)%float.
  rewrite !(B64_European_pow_ext pow B64.pow01) by now apply pow_exact_01.
  split; [vm_compute; reflexivity|]. split; [vm_compute; reflexivity|].
  reflexivity.
Qed.

(** * Properties stated by the specification *)




(** C3 (amended).  For [2 <= N <= 1023] both normalized grids have
    non-negative entries, but their columns are not probability
    distributions over levels.  Every column of [P1] sums to at most 1:
    exactly 1 at period 0 and 1/2 at period 1.  An entry [P2[i,j]] with
    [i <= j] lies in [0,1] and does not depend on [i], so column [j] of [P2]
    sums to [(j+1) * P2[0,j]], which is [N+1] at period [N]. *)
Theorem probability_grid_columns (N : Z) :
  (2 <= N <= 1023)%Z ->
  exists P1 P2,
    expectedMaxPrice_P1 N = Ok P1
    /\ expectedMaxPrice_P2 numberPrimitiveDyckPaths N = Ok P2
    /\ (forall i j, (0 <= j <= N)%Z -> 0 <= Np.item P1 i j)
    /\ (forall j, (0 <= j <= N)%Z -> Np.col_sum P1 j <= 1)
    /\ Np.col_sum P1 0 = 1
    /\ Np.col_sum P1 1 = 1 / 2
    /\ (forall i j, (0 <= i <= j)%Z -> (j <= N)%Z ->
          0 <= Np.item P2 i j <= 1 /\ Np.item P2 i j = Np.item P2 0 j)
    /\ (forall j, (0 <= j <= N)%Z ->
          Np.col_sum P2 j = IZR (j + 1) * Np.item P2 0 j)
    /\ Np.col_sum P2 N = IZR (N + 1).
Proof.
  intros [HN _].
  destruct (P1_grid N HN) as [P1 [E1 [S1 [NN1 [CS1 [C0 [C1 _]]]]]]].
  destruct (P2_grid N ltac:(lia)) as [P2 [gamma [E2 [S2 [B2 [U2 [Z2 L2]]]]]]].
  exists P1, P2. split; [exact E1|]. split; [exact E2|].
  split; [exact NN1|]. split; [exact CS1|]. split; [exact C0|]. split; [exact C1|].
  assert (Hcol : forall j, (0 <= j <= N)%Z ->
            Np.col_sum P2 j = IZR (j + 1) * Np.item P2 0 j).
  { intros j Hj. rewrite (U2 j 0%Z) by lia.
    apply (P2_col_sum N P2 gamma j S2 Hj).
    - intros a Ha. now apply U2.
    - intros a Ha HjN. apply Z2; lia. }
  split; [|split; [exact Hcol|]].
  - intros i j Hij Hj. rewrite (U2 j i), (U2 j 0%Z) by lia.
    split; [apply B2; lia | reflexivity].
  - rewrite Hcol by lia. rewrite (U2 N 0%Z) by lia. rewrite L2. ring.
Qed.

Lemma probability_grid_columns_witness :
  exists P1 P2,
    expectedMaxPrice_P1 4 = Ok P1
    /\ expectedMaxPrice_P2 numberPrimitiveDyckPaths 4 = Ok P2
    /\ (forall i j, (0 <= j <= 4)%Z -> 0 <= Np.item P1 i j)
    /\ (forall j, (0 <= j <= 4)%Z -> Np.col_sum P1 j <= 1)
    /\ Np.col_sum P1 0 = 1
    /\ Np.col_sum P1 1 = 1 / 2
    /\ (forall i j, (0 <= i <= j)%Z -> (j <= 4)%Z ->
          0 <= Np.item P2 i j <= 1 /\ Np.item P2 i j = Np.item P2 0 j)
    /\ (forall j, (0 <= j <= 4)%Z ->
          Np.col_sum P2 j = IZR (j + 1) * Np.item P2 0 j)
    /\ Np.col_sum P2 4 = IZR (4 + 1).
Proof.
  apply (probability_grid_columns 4). lia.
Defined.

(** C3 as stated fails at [N = 2]: column 1 of [P1] sums to 1/2 and column 2
    of [P2] sums to 3. *)
Lemma probability_grid_columns_counterexample :
  exists P1 P2,
    expectedMaxPrice_P1 2 = Ok P1
    /\ expectedMaxPrice_P2 numberPrimitiveDyckPaths 2 = Ok P2
    /\ Np.col_sum P1 1 = 1 / 2 /\ Np.col_sum P1 1 <> 1
    /\ Np.col_sum P2 2 = 3 /\ Np.col_sum P2 2 <> 1.
Proof.
  destruct (P1_grid 2 ltac:(lia)) as [P1 [E1 [_ [_ [_ [_ [H1 _]]]]]]].
  destruct (P2_grid 2 ltac:(lia)) as [P2 [gamma [E2 [S2 [_ [U2 [_ L2]]]]]]].
  assert (H2 : Np.col_sum P2 2 = 3).
  { rewrite (P2_col_sum 2 P2 gamma 2 S2) by (lia || (intros; apply U2; lia)).
    rewrite L2. change (IZR (2 + 1)) with 3. ring. }
  exists P1, P2. split; [exact E1|]. split; [exact E2|].
  rewrite H1, H2. repeat split; lra.
Qed.

(** C4.  With [N = 0] the running-maximum engine does not return 1: the
    unconditional base case [P1[0,1] = 1] indexes column 1 of a 1-by-1 grid
    and the call ends in an [IndexError], for every [v]. *)
Theorem expectedMaxPrice_zero_periods (v : R) :
  expectedMaxPrice_P1 0 = Raise IndexError
  /\ expectedMaxPrice 0 v = Raise IndexError
  /\ expectedMaxPrice 0 v <> Ok 1.
Proof.
  assert (HP1 : expectedMaxPrice_P1 0 = Raise IndexError).
  { unfold expectedMaxPrice_P1. change (Np.zeros (0 + 1)) with
      (Ok (Np.mk_ndarray 1 (fun _ _ => 0))). cbn [bind].
    rewrite set_in by (cbn [Np.shape]; lia). cbn [bind].
    unfold Np.set at 1. cbn [Np.shape].
    change (Np.index 1 0) with (Ok 0%Z). cbn [bind].
    change (Np.index 1 1) with (@Raise Z IndexError). reflexivity. }
  assert (HE : expectedMaxPrice 0 v = Raise IndexError).
  { unfold expectedMaxPrice, expectedMaxPrice_with. rewrite HP1. reflexivity. }
  split; [exact HP1|]. split; [exact HE|]. rewrite HE. discriminate.
Qed.

(** C5 (amended).  The valuators validate none of their parameters and
    raise no [InvalidParameterError].  [v] and [K] are never checked: with
    [N = 0] both valuators return [max(0, 1 - K)] for every [v] and [K],
    inside their ranges or not.  With [N < 0] they end in the array
    library's own error: [IndexError] for [N = -1], [ValueError] below. *)
Theorem parameters_are_not_validated (N : Z) (v K : R) :
  EuropeanCallValue 0 v K = Ok (Rmax 0 (1 - K))
  /\ AmericanCallValue 0 v K = Ok (Rmax 0 (1 - K))
  /\ ((N < 0)%Z ->
      EuropeanCallValue N v K
      = Raise (if (N <? -1)%Z then ValueError else IndexError)
      /\ AmericanCallValue N v K
         = Raise (if (N <? -1)%Z then ValueError else IndexError)).
Proof.
  assert (E : EuropeanCallValue 0 v K = Ok (Rmax 0 (1 - K))).
  { rewrite EuropeanCallValue_expect by lia. reflexivity. }
  split; [exact E|]. split.
  - rewrite American_European_same by lia. exact E.
  - apply valuators_negative_periods.
Qed.

Lemma parameters_are_not_validated_witness :
  EuropeanCallValue 0 (-3) (-2) = Ok (Rmax 0 (1 - -2))
  /\ AmericanCallValue 0 (-3) (-2) = Ok (Rmax 0 (1 - -2))
  /\ EuropeanCallValue (-2) (1 / 2) 1 = Raise ValueError
  /\ AmericanCallValue (-1) (1 / 2) 1 = Raise IndexError.
Proof.
  split; [|split; [|split]].
  - apply (proj1 (parameters_are_not_validated 0 (-3) (-2))).
  - apply (proj1 (proj2 (parameters_are_not_validated 0 (-3) (-2)))).
  - apply (proj1 (proj2 (proj2 (parameters_are_not_validated (-2) (1 / 2) 1))
                    ltac:(lia))).
  - apply (proj2 (proj2 (proj2 (parameters_are_not_validated (-1) (1 / 2) 1))
                    ltac:(lia))).
Defined.

(** C5 as stated fails: with [v = 2] outside (0,1) and [K = -1 < 0] both
    valuators return the value 2 instead of raising. *)
Lemma parameters_are_not_validated_counterexample :
  ~ (0 < 2 < 1) /\ -1 < 0
  /\ EuropeanCallValue 0 2 (-1) = Ok 2 /\ AmericanCallValue 0 2 (-1) = Ok 2
  /\ (forall e, EuropeanCallValue 0 2 (-1) <> Raise e)
  /\ (forall e, AmericanCallValue 0 2 (-1) <> Raise e).
Proof.
  destruct valuators_unchecked_example as [E A].
  split; [lra|]. split; [lra|]. split; [exact E|]. split; [exact A|].
  split; intros e; [rewrite E | rewrite A]; discriminate.
Qed.







(** C8.  On a list with a single instrument the sequential calibration is
    the single calibration: it returns the one-element sequence holding
    [calibrateSingle(N,K,C)], and fails exactly when that call fails. *)
Theorem single_instrument_calibration (brentq : rootfinder) (N : Z) (K C : R) :
  vCalibrationMulti brentq [N] [K] [C]
  = (x <- vCalibration brentq N K C ;; Ok [x]).
Proof.
  unfold vCalibrationMulti, vCalibration.
  change (range2 1 (Z.of_nat (length [N]) + 1)) with [1%Z].
  cbn [for_ length repeat]. change (1 =? 1)%Z with true. cbv iota.
  replace (fun v : R =>
             n <- list_get [N] (1 - 1) ;;
             s <- sum_gen (range (n + 1)) (fun k =>
                    Kk <- list_get [K] (1 - 1) ;;
                    Ok (comb n k * Rmax 0 ((1 + v) ** k * (1 - v) ** (n - k) - Kk))) 0 ;;
             c <- list_get [C] (1 - 1) ;;
             Ok (s / 2 ** n - c))
    with (fun v : R => Ok (binomialPrice N v K - C)).
  - destruct (brentq _ 0 1) as [x|e]; reflexivity.
  - apply functional_extensionality. intros v.
    change (list_get [N] (1 - 1)) with (Ok N).
    change (list_get [C] (1 - 1)) with (Ok C).
    change (list_get [K] (1 - 1)) with (Ok K). cbn [bind].
    rewrite (sum_gen_pure _ (fun k => comb N k
                               * Rmax 0 ((1 + v) ** k * (1 - v) ** (N - k) - K)))
      by reflexivity.
    cbn [bind]. unfold binomialPrice. now rewrite Rplus_0_l.
Qed.

(** C9 (amended).  The Dyck path counters return the closed forms exactly on
    an initial range: for [0 <= n <= 18], [numDyck(n)] is the float of the
    integer [C(2n,n) / (n+1)], and for [1 <= n <= 19], [numPrimitiveDyck(n)]
    is the float of [C(2n-2,n-1) / n]; in particular numDyck is 1, 1, 2, 5 at
    0..3 and numPrimitiveDyck is 1, 1, 2 at 1..3.  Beyond that range they
    return a floating-point approximation of the binomial coefficient
    divided by [n+1], resp. [n]. *)
Theorem dyck_path_counts (n : Z) :
  ((0 <= n <= 18)%Z ->
   B64.numberDyckPaths n = Some (B64.of_Z (choose (2 * n) n / (n + 1))))
  /\ ((1 <= n <= 19)%Z ->
      B64.numberPrimitiveDyckPaths n
      = Some (B64.of_Z (choose (2 * n - 2) (n - 1) / n)))
  /\ B64.numberDyckPaths 0 = Some 1%float
  /\ B64.numberDyckPaths 1 = Some 1%float
  /\ B64.numberDyckPaths 2 = Some 2%float
  /\ B64.numberDyckPaths 3 = Some 5%float
  /\ B64.numberPrimitiveDyckPaths 1 = Some 1%float
  /\ B64.numberPrimitiveDyckPaths 2 = Some 1%float
  /\ B64.numberPrimitiveDyckPaths 3 = Some 2%float.
Proof.
  split; [|split].
  - intros Hn. replace n with (Z.of_nat (Z.to_nat n)) by lia.
    assert (Hk : (Z.to_nat n < 19)%nat) by lia. revert Hk.
    generalize (Z.to_nat n). intros k Hk.
    do 19 (destruct k as [|k]; [vm_compute; reflexivity|]). lia.
  - intros Hn. replace n with (1 + Z.of_nat (Z.to_nat (n - 1)))%Z by lia.
    assert (Hk : (Z.to_nat (n - 1) < 19)%nat) by lia. revert Hk.
    generalize (Z.to_nat (n - 1)). intros k Hk.
    do 19 (destruct k as [|k]; [vm_compute; reflexivity|]). lia.
  - repeat split; vm_compute; reflexivity.
Qed.

Lemma dyck_path_counts_witness :
  B64.numberDyckPaths 4 = Some (B64.of_Z (choose (2 * 4) 4 / (4 + 1)))
  /\ B64.numberPrimitiveDyckPaths 4
     = Some (B64.of_Z (choose (2 * 4 - 2) (4 - 1) / 4)).
Proof.
  split.
  - apply (proj1 (dyck_path_counts 4)). lia.
  - apply (proj1 (proj2 (dyck_path_counts 4))). lia.
Defined.

(** C9 as stated fails at [n = 19]: [C(38,19) / 20] is 1767263190, and
    [numberDyckPaths(19)] returns the float [1767263189.9999995], written
    [0x1.a5592f57ffffep+30] in hexadecimal, because the product loop of
    [comb] has rounded. *)
Lemma dyck_path_counts_counterexample :
  (choose (2 * 19) 19 / (19 + 1) = 1767263190)%Z
  /\ B64.numberDyckPaths 19 = Some 0x1.a5592f57ffffep+30%float
  /\ (0x1.a5592f57ffffep+30 <? B64.of_Z 1767263190)%float = true
  /\ B64.numberDyckPaths 19
     <> Some (B64.of_Z (choose (2 * 19) 19 / (19 + 1))).
Proof.
  split; [vm_compute; reflexivity|]. split; [vm_compute; reflexivity|].
  split; [vm_compute; reflexivity|].
  intros H.
  apply (f_equal (fun o => match o with
                           | Some x => (x <? B64.of_Z 1767263190)%float
                           | None => false
                           end)) in H.
  vm_compute in H. discriminate H.
Qed.

(** C10.  The running-maximum engine calls the primitive Dyck path counter
    with arguments [k >= 1] only: replacing the counter by any function that
    agrees with it on [k >= 1] leaves the result of every run unchanged, the
    counter returns a value (its division by [n] is defined) at every such
    argument, and no run of the engine ends in a division by zero. *)
Theorem primitive_counter_never_divides_by_zero (N : Z) (v : R) :
  (forall prim : Z -> result R,
     (forall k, (1 <= k)%Z -> prim k = numberPrimitiveDyckPaths k) ->
     expectedMaxPrice_with prim N v = expectedMaxPrice N v)
  /\ (forall k, (1 <= k)%Z -> exists x, numberPrimitiveDyckPaths k = Ok x)
  /\ expectedMaxPrice N v <> Raise ZeroDivisionError.
Proof.
  split; [|split].
  - intros prim Hprim. unfold expectedMaxPrice.
    now apply expectedMaxPrice_with_ext.
  - intros k Hk. rewrite numberPrimitiveDyckPaths_catalan by exact Hk.
    eexists. reflexivity.
  - destruct (Z_lt_le_dec N 2) as [Hlt|Hge].
    + rewrite expectedMaxPrice_too_few_periods by exact Hlt.
      destruct (N <? -1)%Z; discriminate.
    + destruct (expectedMaxPrice_returns N v Hge) as [x ->]. discriminate.
Qed.

Lemma primitive_counter_never_divides_by_zero_witness :
  expectedMaxPrice_with
    (fun k => if (k <? 1)%Z then Ok 7 else numberPrimitiveDyckPaths k) 3 (1 / 10)
  = expectedMaxPrice 3 (1 / 10)
  /\ exists x, numberPrimitiveDyckPaths 2 = Ok x.
Proof.
  split.
  - apply (proj1 (primitive_counter_never_divides_by_zero 3 (1 / 10))).
    intros k Hk. destruct (Z.ltb_spec k 1); [lia | reflexivity].
  - apply (proj1 (proj2 (primitive_counter_never_divides_by_zero 3 (1 / 10)))). lia.
Defined.

(** * Further properties of the code *)

(** ** The lattice expectation as an operator on payoffs *)

Lemma lattice_expect_le (v : R) (phi psi : R -> R) (m : nat) :
  (forall s, phi s <= psi s) ->
  forall s, lattice_expect v phi m s <= lattice_expect v psi m s.
Proof.
  intros H. induction m as [|m IH]; intros s; cbn [lattice_expect].
  - apply H.
  - assert (H1 := IH (s * (1 + v))). assert (H2 := IH (s * (1 - v))). lra.
Qed.

Lemma lattice_expect_even (v : R) (phi : R -> R) (m : nat) :
  forall s, lattice_expect (- v) phi m s = lattice_expect v phi m s.
Proof.
  induction m as [|m IH]; intros s; cbn [lattice_expect].
  - reflexivity.
  - rewrite !IH.
    replace (s * (1 + - v)) with (s * (1 - v)) by ring.
    replace (s * (1 - - v)) with (s * (1 + v)) by ring.
    field.
Qed.

Lemma call_payoff_strike (K1 K2 s : R) :
  K1 <= K2 ->
  call_payoff K2 s <= call_payoff K1 s <= call_payoff K2 s + (K2 - K1).
Proof.
  intros HK. unfold call_payoff, Rmax.
  destruct (Rle_dec 0 (s - K1)), (Rle_dec 0 (s - K2)); lra.
Qed.

(** ** The strike, and the sign of [v] *)

(** X2.  For [0 <= N <= 1023] and [0 <= v <= 1] the European price does not
    increase with the strike: [K1 <= K2] gives
    [EuropeanCallValue(N,v,K2) <= EuropeanCallValue(N,v,K1)]. *)
Theorem european_monotone_in_strike (N : Z) (v K1 K2 : R) :
  (0 <= N <= 1023)%Z -> 0 <= v <= 1 -> K1 <= K2 ->
  exists p1 p2, EuropeanCallValue N v K1 = Ok p1
                /\ EuropeanCallValue N v K2 = Ok p2
                /\ p2 <= p1.
Proof.
  intros [HN _] _ HK.
  exists (lattice_expect v (call_payoff K1) (Z.to_nat N) 1),
         (lattice_expect v (call_payoff K2) (Z.to_nat N) 1).
  split; [now apply EuropeanCallValue_expect|].
  split; [now apply EuropeanCallValue_expect|].
  apply lattice_expect_le. intros s. apply (call_payoff_strike K1 K2 s HK).
Qed.

Lemma european_monotone_in_strike_witness :
  exists p1 p2, EuropeanCallValue 3 (1 / 5) (1 / 2) = Ok p1
                /\ EuropeanCallValue 3 (1 / 5) 1 = Ok p2
                /\ p2 <= p1.
Proof.
  apply (european_monotone_in_strike 3 (1 / 5) (1 / 2) 1); [lia | lra | lra].
Defined.

(** X4.  The valuators do not see the sign of [v]: for [N >= 0], pricing with
    [- v] gives the price of [v], for both valuators. *)
Theorem call_value_even_in_v (N : Z) (v K : R) :
  (0 <= N)%Z ->
  EuropeanCallValue N (- v) K = EuropeanCallValue N v K
  /\ AmericanCallValue N (- v) K = AmericanCallValue N v K.
Proof.
  intros HN.
  assert (E : EuropeanCallValue N (- v) K = EuropeanCallValue N v K).
  { rewrite !EuropeanCallValue_expect by exact HN.
    now rewrite lattice_expect_even. }
  split; [exact E|]. now rewrite !American_European_same by exact HN.
Qed.

Lemma call_value_even_in_v_witness :
  EuropeanCallValue 3 (- (1 / 10)) 1 = EuropeanCallValue 3 (1 / 10) 1
  /\ AmericanCallValue 3 (- (1 / 10)) 1 = AmericanCallValue 3 (1 / 10) 1.
Proof.
  apply (call_value_even_in_v 3 (1 / 10) 1). lia.
Defined.

(** ** Outcome of the running-maximum engine by number of periods *)

(** X8.  [expectedMaxPrice] needs at least two periods.  For
    [2 <= N <= 1023] and [0 <= v <= 1] it returns a value.  With [N] in
    -1..1 the base cases of [P1] index outside the grid and the call ends in
    an [IndexError]; with [N < -1] the allocation of the grid ends in a
    [ValueError]. *)
Theorem expectedMaxPrice_outcome (N : Z) (v : R) :
  ((2 <= N <= 1023)%Z -> 0 <= v <= 1 -> exists x, expectedMaxPrice N v = Ok x)
  /\ ((-1 <= N < 2)%Z -> expectedMaxPrice N v = Raise IndexError)
  /\ ((N < -1)%Z -> expectedMaxPrice N v = Raise ValueError).
Proof.
  split; [|split]; intros HN.
  - intros _. apply expectedMaxPrice_returns. lia.
  - rewrite expectedMaxPrice_too_few_periods by lia.
    destruct (Z.ltb_spec N (-1)); [lia | reflexivity].
  - rewrite expectedMaxPrice_too_few_periods by lia.
    destruct (Z.ltb_spec N (-1)); [reflexivity | lia].
Qed.

Lemma expectedMaxPrice_outcome_witness :
  (exists x, expectedMaxPrice 5 (1 / 10) = Ok x)
  /\ expectedMaxPrice 1 (1 / 10) = Raise IndexError
  /\ expectedMaxPrice (-3) (1 / 10) = Raise ValueError.
Proof.
  split; [|split].
  - apply (proj1 (expectedMaxPrice_outcome 5 (1 / 10))); [lia | lra].
  - apply (proj1 (proj2 (expectedMaxPrice_outcome 1 (1 / 10)))). lia.
  - apply (proj2 (proj2 (expectedMaxPrice_outcome (-3) (1 / 10)))). lia.
Defined.

(** ** The Dyck path counters outside their domain *)

(** X10.  The two counters are one sequence shifted by one: for every
    integer [n], [numberPrimitiveDyckPaths(n)] is [numberDyckPaths(n - 1)].
    Neither raises where its divisor is 0: [numberDyckPaths(-1)] and
    [numberPrimitiveDyckPaths(0)] divide the float 0 by 0 and return nan.
    For [n < -1], as long as [2 * n] is a 64-bit integer,
    [numberDyckPaths(n)] is 0. *)
Theorem dyck_counters_shift (n : Z) :
  numberPrimitiveDyckPaths n = numberDyckPaths (n - 1)
  /\ B64.numberPrimitiveDyckPaths n = B64.numberDyckPaths (n - 1)
  /\ (exists x, B64.numberDyckPaths (-1) = Some x /\ is_nan x = true)
  /\ (exists x, B64.numberPrimitiveDyckPaths 0 = Some x /\ is_nan x = true)
  /\ ((- 2 ^ 62 <= n < -1)%Z -> numberDyckPaths n = Ok 0).
Proof.
  split; [|split; [|split; [|split]]].
  - unfold numberPrimitiveDyckPaths, numberDyckPaths.
    replace (n - 1 + 1)%Z with n by lia.
    replace (2 * (n - 1))%Z with (2 * n - 2)%Z by lia. reflexivity.
  - unfold B64.numberPrimitiveDyckPaths, B64.numberDyckPaths.
    replace (n - 1 + 1)%Z with n by lia.
    replace (2 * (n - 1))%Z with (2 * n - 2)%Z by lia. reflexivity.
  - eexists. split; vm_compute; reflexivity.
  - eexists. split; vm_compute; reflexivity.
  - intros [_ Hn]. unfold numberDyckPaths, comb.
    destruct (Z.eqb_spec (n + 1) 0); [lia|].
    destruct (Z.leb_spec 0 n); [lia|]. cbn [andb]. f_equal. unfold Rdiv. ring.
Qed.

Lemma dyck_counters_shift_witness :
  numberPrimitiveDyckPaths 0 = numberDyckPaths (0 - 1)
  /\ numberDyckPaths (-4) = Ok 0.
Proof.
  split.
  - apply (proj1 (dyck_counters_shift 0)).
  - apply (proj2 (proj2 (proj2 (proj2 (dyck_counters_shift (-4)))))). lia.
Defined.

(** ** Shape of the two probability grids *)

Lemma P1_entry_off_triangle (j : Z) (C : Np.ndarray) (i : Z) :
  (0 <= j < i)%Z -> (forall a b, (b < a)%Z -> Np.item C a b = 0) ->
  P1_entry j C i = 0.
Proof.
  intros Hi Hz. unfold P1_entry.
  rewrite (sum_map_ext _ (fun _ => 0)).
  - rewrite sum_map_const. ring.
  - intros k Hk. apply in_range in Hk. rewrite Hz by lia. ring.
Qed.

Lemma P1_entry_top (j : Z) (C : Np.ndarray) :
  (1 <= j)%Z -> Np.item C 0 (j - 1) = 1 -> P1_entry j C 0 = 1.
Proof.
  intros Hj Htop. unfold P1_entry.
  assert (Hdiv0 : (0 <= (j - 1) / 2)%Z) by (apply Z.div_pos; lia).
  replace (Z.min (0 + 1) ((j - 1) / 2 + 1)) with 1%Z by lia.
  change (range 1) with [0%Z]. cbn [map]. rewrite sum_cons, sum_nil.
  replace (0 - 0)%Z with 0%Z by lia. replace (j - 1 - 2 * 0)%Z with (j - 1)%Z by lia.
  rewrite Htop. unfold catalan. change (Z.to_nat 0) with O. cbn. lra.
Qed.

Lemma P1_counts_triangle (N : Z) (C : Np.ndarray) :
  (2 <= N)%Z -> Np.shape C = (N + 1)%Z ->
  (forall a b, (b < a)%Z -> Np.item C a b = 0) ->
  (forall b, (0 <= b < 3)%Z -> Np.item C 0 b = 1) ->
  exists C',
    for_ (range2 3 (N + 1)) (fun j P1 =>
      for_ (range (N + 1)) (fun i P1 =>
        let kRange := range (Z.min (i + 1) ((j - 1) / 2 + 1)) in
        s <- sum_gen kRange (fun k =>
               a <- Np.get P1 (i - k) (j - 1 - 2 * k) ;;
               d <- numberDyckPaths k ;;
               Ok (a * d)) 0 ;;
        Np.set P1 i j s) P1) C = Ok C'
    /\ Np.shape C' = (N + 1)%Z
    /\ (forall a b, (b < a)%Z -> Np.item C' a b = 0)
    /\ (forall b, (0 <= b <= N)%Z -> Np.item C' 0 b = 1).
Proof.
  intros HN HC Hz Htop.
  destruct (for_inv
    (fun n C' =>
       Np.shape C' = (N + 1)%Z /\
       (forall a b, (b < a)%Z -> Np.item C' a b = 0) /\
       (forall b, (0 <= b < 3 + Z.of_nat n)%Z -> Np.item C' 0 b = 1))
    (range2 3 (N + 1)) (fun j P1 =>
      for_ (range (N + 1)) (fun i P1 =>
        let kRange := range (Z.min (i + 1) ((j - 1) / 2 + 1)) in
        s <- sum_gen kRange (fun k =>
               a <- Np.get P1 (i - k) (j - 1 - 2 * k) ;;
               d <- numberDyckPaths k ;;
               Ok (a * d)) 0 ;;
        Np.set P1 i j s) P1) C)
    as [C' [E [S' [Z' T']]]].
  - split; [exact HC|]. split; [exact Hz|]. intros b Hb. apply Htop. lia.
  - intros n x s0 Hn [Hs [Hz0 Htop0]].
    apply range2_nth in Hn. destruct Hn as [-> Hn].
    set (j := (3 + Z.of_nat n)%Z).
    destruct (P1_column N j s0 ltac:(subst j; lia) Hs) as [C1 [E1 [S1 [O1 [I1 U1]]]]].
    exists C1. split; [exact E1|]. split; [exact S1|]. split.
    + intros a b Hab. destruct (Z.eq_dec b j) as [->|Hne].
      * destruct (Z_le_dec a N) as [HaN|HaN].
        -- rewrite I1 by (subst j; lia).
           apply P1_entry_off_triangle; [subst j; lia | exact Hz0].
        -- rewrite U1 by lia. now apply Hz0.
      * rewrite O1 by exact Hne. now apply Hz0.
    + intros b Hb. destruct (Z.eq_dec b j) as [->|Hne].
      * rewrite I1 by lia. apply P1_entry_top; [subst j; lia|].
        apply Htop0. subst j; lia.
      * rewrite O1 by exact Hne. apply Htop0. subst j; lia.
  - rewrite range2_length in T'.
    exists C'. split; [exact E|]. split; [exact S'|]. split; [exact Z'|].
    intros b Hb. apply T'. lia.
Qed.

(** X12.  For [2 <= N <= 1023] the forward grid is triangular although its loop runs
    over every row: [P1[i,j] = 0] below the diagonal ([i > j]), and its top
    row, the path of up-moves only, holds [P1[0,j] = 1 / 2^j].  The backward
    grid is 0 below the diagonal too, except for its last column, which is 1
    in every row. *)
Theorem probability_grid_shape (N : Z) :
  (2 <= N <= 1023)%Z ->
  exists P1 P2,
    expectedMaxPrice_P1 N = Ok P1
    /\ expectedMaxPrice_P2 numberPrimitiveDyckPaths N = Ok P2
    /\ (forall j, (0 <= j <= N)%Z -> Np.item P1 0 j = 1 / 2 ** j)
    /\ (forall i j, (0 <= j < i)%Z -> (i <= N)%Z -> Np.item P1 i j = 0)
    /\ (forall i j, (0 <= j < i)%Z -> (i <= N)%Z -> (j < N)%Z ->
                    Np.item P2 i j = 0)
    /\ (forall i, (0 <= i <= N)%Z -> Np.item P2 i N = 1).
Proof.
  intros [HN _].
  destruct (P2_grid N ltac:(lia)) as [P2 [gamma [E2 [S2 [_ [U2 [Z2 L2]]]]]]].
  assert (HP1 : exists P1, expectedMaxPrice_P1 N = Ok P1
            /\ (forall j, (0 <= j <= N)%Z -> Np.item P1 0 j = 1 / 2 ** j)
            /\ (forall i j, (0 <= j < i)%Z -> (i <= N)%Z -> Np.item P1 i j = 0)).
  { unfold expectedMaxPrice_P1, Np.zeros.
    destruct (Z.ltb_spec (N + 1) 0); [lia|]. cbn [bind].
    rewrite set_in by (cbn [Np.shape]; lia). cbn [bind].
    rewrite set_in by (cbn [Np.shape]; lia). cbn [bind].
    rewrite set_in by (cbn [Np.shape]; lia). cbn [bind Np.shape Np.item].
    set (A0 := Np.mk_ndarray (N + 1) _).
    destruct (P1_counts_triangle N A0 HN eq_refl) as [C1 [E1 [S1 [Z1 T1]]]].
    - intros a b Hab. unfold A0; cbn [Np.item].
      destruct (Z.eqb_spec a 0) as [->|Ha]; cbn [andb]; [|reflexivity].
      destruct (Z.eqb_spec b 2); [lia|]. destruct (Z.eqb_spec b 1); [lia|].
      destruct (Z.eqb_spec b 0); [lia|]. reflexivity.
    - intros b Hb. unfold A0; cbn [Np.item].
      assert (Hb3 : (b = 0 \/ b = 1 \/ b = 2)%Z) by lia.
      destruct Hb3 as [->|[->| ->]]; reflexivity.
    - cbv zeta in E1. rewrite E1. cbn [bind].
      destruct (for_div_cols (N + 1) (fun j => 2 ** j) C1 ltac:(lia))
        as [P1 [E [_ [I _]]]].
      rewrite E. exists P1. split; [reflexivity|]. split.
      + intros j Hj. rewrite I by lia. now rewrite T1.
      + intros i j Hij Hi. rewrite I by lia. rewrite Z1 by lia.
        unfold Rdiv. ring. }
  destruct HP1 as [P1 [E1 [T1 Z1]]].
  exists P1, P2. split; [exact E1|]. split; [exact E2|].
  split; [exact T1|]. split; [exact Z1|]. split.
  - intros i j Hij Hi Hj. apply Z2; lia.
  - intros i Hi. rewrite (U2 N i) by lia. exact L2.
Qed.

Lemma probability_grid_shape_witness :
  exists P1 P2,
    expectedMaxPrice_P1 5 = Ok P1
    /\ expectedMaxPrice_P2 numberPrimitiveDyckPaths 5 = Ok P2
    /\ (forall j, (0 <= j <= 5)%Z -> Np.item P1 0 j = 1 / 2 ** j)
    /\ (forall i j, (0 <= j < i)%Z -> (i <= 5)%Z -> Np.item P1 i j = 0)
    /\ (forall i j, (0 <= j < i)%Z -> (i <= 5)%Z -> (j < 5)%Z ->
                    Np.item P2 i j = 0)
    /\ (forall i, (0 <= i <= 5)%Z -> Np.item P2 i 5 = 1).
Proof.
  apply (probability_grid_shape 5). lia.
Defined.

(** ** Calibration on several instruments *)

Lemma rootfinder_ext (brentq : rootfinder) (f g : R -> result R) (a b : R) :
  (forall v, f v = g v) -> brentq f a b = brentq g a b.
Proof.
  intros H. replace g with f; [reflexivity|].
  apply functional_extensionality. exact H.
Qed.

Lemma pascal_sumn (F : nat -> R) (m : nat) :
  sumn (fun k => INR (binom (S m) k) * F k) (S (S m))
  = sumn (fun k => INR (binom m k) * F k) (S m)
    + sumn (fun k => INR (binom m k) * F (S k)) (S m).
Proof.
  rewrite (sumn_S_first _ (S m)).
  rewrite (sumn_ext _ (fun k => INR (binom m k) * F (S k)
                               + INR (binom m (S k)) * F (S k))).
  2:{ intros k _. cbn [binom]. rewrite plus_INR. ring. }
  rewrite sumn_plus.
  rewrite (sumn_S_first (fun k => INR (binom m k) * F k) m).
  rewrite (sumn_S (fun k => INR (binom m (S k)) * F (S k)) m).
  rewrite (binom_gt m (S m)) by lia. rewrite !binom_0. cbn [INR]. lra.
Qed.

Lemma lattice_expect_binomial (v : R) (phi : R -> R) (m : nat) :
  forall s,
    lattice_expect v phi m s
    = sumn (fun k => INR (binom m k) * phi (s * (1 + v) ^ k * (1 - v) ^ (m - k)))
           (S m) / 2 ^ m.
Proof.
  induction m as [|m IH]; intros s.
  - cbn [lattice_expect]. rewrite sumn_S, sumn_0. cbn [binom INR pow Nat.sub].
    replace (s * 1 * 1) with s by ring. lra.
  - cbn [lattice_expect]. rewrite !IH.
    rewrite (pascal_sumn (fun k => phi (s * (1 + v) ^ k * (1 - v) ^ (S m - k))) m).
    assert (H2 : 2 ^ m <> 0) by (apply pow_nonzero; lra).
    rewrite (sumn_ext
      (fun k => INR (binom m k) * phi (s * (1 + v) * (1 + v) ^ k * (1 - v) ^ (m - k)))
      (fun k => INR (binom m k) * phi (s * (1 + v) ^ S k * (1 - v) ^ (S m - S k)))).
    2:{ intros k _. cbn [pow Nat.sub]. do 2 f_equal. ring. }
    rewrite (sumn_ext
      (fun k => INR (binom m k) * phi (s * (1 - v) * (1 + v) ^ k * (1 - v) ^ (m - k)))
      (fun k => INR (binom m k) * phi (s * (1 + v) ^ k * (1 - v) ^ (S m - k)))).
    2:{ intros k Hk. replace (S m - k)%nat with (S (m - k)) by lia.
        cbn [pow]. do 2 f_equal. ring. }
    cbn [pow]. field. exact H2.
Qed.

(** The binomial sum the lambdas of [vCalibrationMulti] spell out, from the
    price [s] over [N0] periods of step [v]. *)
Lemma block_sum (N0 : Z) (v s : R) (phi : R -> R) :
  (0 <= N0)%Z ->
  (0 + sum (map (fun k => comb N0 k * phi (s * (1 + v) ** k * (1 - v) ** (N0 - k)))
                (range (N0 + 1)))) / 2 ** N0
  = lattice_expect v phi (Z.to_nat N0) s.
Proof.
  intros HN. rewrite lattice_expect_binomial, Rplus_0_l, sum_range.
  replace (Z.to_nat (N0 + 1)) with (S (Z.to_nat N0)) by lia.
  rewrite (powerRZ_of_nat 2 N0 HN). f_equal.
  apply sumn_ext. intros k Hk.
  rewrite comb_in by lia. rewrite Nat2Z.id.
  rewrite <- pow_powerRZ. rewrite powerRZ_of_nat by lia.
  now replace (Z.to_nat (N0 - Z.of_nat k)) with (Z.to_nat N0 - k)%nat by lia.
Qed.

(** X13.  The sequential calibration reads the list of periods through its
    length and its first entry only, and the list of strikes through its
    first entry only: two calls that agree on these and on the prices give
    the same result.  Every later instrument is calibrated with the periods
    and the strike of the first one. *)
Theorem vCalibrationMulti_reads_first_instrument (brentq : rootfinder)
        (N N' : list Z) (K K' C : list R) :
  length N = length N' ->
  list_get N 0 = list_get N' 0 ->
  list_get K 0 = list_get K' 0 ->
  vCalibrationMulti brentq N K C = vCalibrationMulti brentq N' K' C.
Proof.
  intros Hlen HN HK. unfold vCalibrationMulti. rewrite Hlen.
  apply for_ext. intros i V Hi. apply in_range2 in Hi.
  destruct (Z.eqb_spec i 1) as [->|Hne].
  - change (1 - 1)%Z with 0%Z. cbv zeta. rewrite HN, HK. reflexivity.
  - cbv zeta. rewrite (while_j_ends (Z.to_nat i) i) by lia.
    change (1 - 1)%Z with 0%Z. rewrite HN, HK. reflexivity.
Qed.

Lemma vCalibrationMulti_reads_first_instrument_witness :
  vCalibrationMulti (fun f _ _ => f (1 / 2)) [2; 5; 7]%Z [1; 3; 4] [0; 0; 0]
  = vCalibrationMulti (fun f _ _ => f (1 / 2)) [2; 9; 9]%Z [1] [0; 0; 0].
Proof.
  apply (vCalibrationMulti_reads_first_instrument (fun f _ _ => f (1 / 2)));
    reflexivity.
Defined.

(** X14.  With two instruments, [0 <= N[0] <= 511] and a root finder that
    returns points of its bracket, the first parameter is the single
    calibration of the first instrument, and the second one is the root of a
    two-block price minus [C[1]]: a call struck at [K[0]] on [N[0]] periods
    of the first parameter followed by [N[0]] periods of the unknown one.
    Neither [N[1]] nor [K[1]] enters. *)
Theorem two_instrument_calibration (brentq : rootfinder) (N0 N1 : Z)
        (K0 K1 C0 C1 : R) :
  (0 <= N0 <= 511)%Z ->
  (forall f x, brentq f 0 1 = Ok x -> 0 <= x <= 1) ->
  vCalibrationMulti brentq [N0; N1] [K0; K1] [C0; C1]
  = (v1 <- vCalibration brentq N0 K0 C0 ;;
     v2 <- brentq (fun v => Ok (two_block_price N0 K0 v1 v - C1)) 0 1 ;;
     Ok [v1; v2]).
Proof.
  intros [HN _] _.
  unfold vCalibrationMulti, vCalibration.
  change (range2 1 (Z.of_nat (length [N0; N1]) + 1)) with [1%Z; 2%Z].
  cbn [for_ length repeat].
  change (1 =? 1)%Z with true. change (2 =? 1)%Z with false. cbv iota zeta.
  change (while_j (Z.to_nat 2) 2) with 1%Z.
  change (1 - 1)%Z with 0%Z. change (2 - 1)%Z with 1%Z.
  change (list_get [N0; N1] 0) with (Ok N0).
  change (list_get [K0; K1] 0) with (Ok K0).
  change (list_get [C0; C1] 0) with (Ok C0).
  change (list_get [C0; C1] 1) with (Ok C1).
  cbn [bind].
  rewrite (rootfinder_ext brentq _ (fun v => Ok (binomialPrice N0 v K0 - C0))).
  2:{ intros v.
      rewrite (sum_gen_pure _ (fun k => comb N0 k
                 * Rmax 0 ((1 + v) ** k * (1 - v) ** (N0 - k) - K0)))
        by reflexivity.
      cbn [bind]. unfold binomialPrice. now rewrite Rplus_0_l. }
  destruct (brentq (fun v => Ok (binomialPrice N0 v K0 - C0)) 0 1) as [x|e];
    [|reflexivity].
  cbn [bind]. change (list_set [0; 0] 0 x) with (Ok [x; 0]). cbn [bind].
  change (list_get [x; 0] 0) with (Ok x). cbn [bind].
  rewrite (rootfinder_ext brentq _ (fun v => Ok (two_block_price N0 K0 x v - C1))).
  2:{ intros v.
      rewrite (sum_gen_pure _ (fun t => comb N0 t
                 * lattice_expect v (call_payoff K0) (Z.to_nat N0)
                     (1 * (1 + x) ** t * (1 - x) ** (N0 - t)))).
      - cbn [bind]. unfold two_block_price.
        now rewrite <- (block_sum N0 x 1 _ HN).
      - intros t _.
        rewrite (sum_gen_pure _ (fun i' => comb N0 i'
                   * call_payoff K0 ((1 + x) ** t * (1 - x) ** (N0 - t)
                                     * (1 + v) ** i' * (1 - v) ** (N0 - i'))))
          by reflexivity.
        cbn [bind]. rewrite (block_sum N0 v _ (call_payoff K0) HN).
        now replace (1 * (1 + x) ** t * (1 - x) ** (N0 - t))
          with ((1 + x) ** t * (1 - x) ** (N0 - t)) by ring. }
  destruct (brentq _ 0 1) as [y|e]; reflexivity.
Qed.

Lemma two_instrument_calibration_witness :
  vCalibrationMulti (fun _ _ _ => Ok (1 / 10)) [2; 3]%Z [1; 2] [1 / 10; 1 / 5]
  = (v1 <- vCalibration (fun _ _ _ => Ok (1 / 10)) 2 1 (1 / 10) ;;
     v2 <- (fun _ _ _ => Ok (1 / 10))
             (fun v => Ok (two_block_price 2 1 v1 v - 1 / 5)) 0 1 ;;
     Ok [v1; v2]).
Proof.
  apply (two_instrument_calibration (fun _ _ _ => Ok (1 / 10)) 2 3 1 2
           (1 / 10) (1 / 5)); [lia|].
  intros f x H. injection H as <-. lra.
Defined.

(** X15.  The lengths of the three lists are never compared.  With an empty
    list of periods the call returns the empty array without calling the
    root finder, whatever the other lists hold.  With a first number of
    periods in 0..1023 and an empty list of strikes or of prices, the objective
    of the first instrument raises an [IndexError] wherever it is evaluated,
    and a root finder that lets the exception of its first evaluation
    through ends the call with it. *)
Theorem vCalibrationMulti_list_lengths (brentq : rootfinder) (N : list Z)
        (K C : list R) :
  (N = [] -> vCalibrationMulti brentq N K C = Ok [])
  /\ (forall N0 Ns,
        N = N0 :: Ns -> (0 <= N0 <= 1023)%Z -> K = [] \/ C = [] ->
        brentq_propagates brentq ->
        vCalibrationMulti brentq N K C = Raise IndexError).
Proof.
  split; [intros ->; reflexivity|].
  intros N0 Ns -> [HN _] Hshort Hprop. unfold vCalibrationMulti.
  rewrite range2_cons by (cbn [length]; lia).
  cbn [for_]. change (1 =? 1)%Z with true. cbv iota zeta.
  change (1 - 1)%Z with 0%Z.
  rewrite (Hprop _ IndexError); [reflexivity|].
  change (list_get (N0 :: Ns) 0) with (Ok N0). cbn [bind].
  destruct K as [|K0 Ks].
  - unfold range. rewrite range2_cons by lia. reflexivity.
  - destruct Hshort as [HK|HC]; [discriminate|]. subst C.
    change (list_get (K0 :: Ks) 0) with (Ok K0).
    rewrite (sum_gen_pure _ (fun k => comb N0 k
               * Rmax 0 ((1 + 0) ** k * (1 - 0) ** (N0 - k) - K0)))
      by reflexivity.
    reflexivity.
Qed.

Lemma vCalibrationMulti_list_lengths_witness :
  vCalibrationMulti
    (fun f a _ => match f a with Ok _ => Ok 0 | Raise e => Raise e end)
    [] [1; 2] [1 / 10]
  = Ok []
  /\ vCalibrationMulti
       (fun f a _ => match f a with Ok _ => Ok 0 | Raise e => Raise e end)
       [3; 4]%Z [] [1 / 10; 1 / 5]
     = Raise IndexError.
Proof.
  split.
  - apply (proj1 (vCalibrationMulti_list_lengths
                    (fun f a _ => match f a with Ok _ => Ok 0 | Raise e => Raise e end)
                    [] [1; 2] [1 / 10])). reflexivity.
  - apply (proj2 (vCalibrationMulti_list_lengths
                    (fun f a _ => match f a with Ok _ => Ok 0 | Raise e => Raise e end)
                    [3; 4]%Z [] [1 / 10; 1 / 5]) 3%Z [4%Z]).
    + reflexivity.
    + lia.
    + left. reflexivity.
    + intros f e H. now rewrite H.
Defined.

(** ** Degenerate lattices *)

(** X18.  With no period, or with [v = 0], the European valuator returns the
    exercise value [max(0, 1 - K)] of the base price; with [v = 1],
    [0 <= N <= 1023] and [K >= 0], where a single down-move sends the price
    to 0 for good, it returns [max(0, 1 - K / 2^N)]. *)
Theorem european_degenerate_lattice (N : Z) (v K : R) :
  EuropeanCallValue 0 v K = Ok (Rmax 0 (1 - K))
  /\ ((0 <= N)%Z -> EuropeanCallValue N 0 K = Ok (Rmax 0 (1 - K)))
  /\ ((0 <= N <= 1023)%Z -> 0 <= K ->
      EuropeanCallValue N 1 K = Ok (Rmax 0 (1 - K / 2 ** N))).
Proof.
  split; [|split].
  - rewrite EuropeanCallValue_expect by lia. reflexivity.
  - intros HN. rewrite EuropeanCallValue_binomialPrice by exact HN.
    now rewrite binomialPrice_at_0.
  - intros [HN _] HK. rewrite EuropeanCallValue_binomialPrice by exact HN.
    now rewrite binomialPrice_at_1.
Qed.

Lemma european_degenerate_lattice_witness :
  EuropeanCallValue 4 0 (1 / 2) = Ok (Rmax 0 (1 - 1 / 2))
  /\ EuropeanCallValue 4 1 (1 / 2) = Ok (Rmax 0 (1 - 1 / 2 / 2 ** 4)).
Proof.
  split.
  - apply (proj1 (proj2 (european_degenerate_lattice 4 0 (1 / 2)))). lia.
  - apply (proj2 (proj2 (european_degenerate_lattice 4 0 (1 / 2)))); [lia | lra].
Defined.

(** ** Calibration preserves the order of prices *)




